(** * WLC chain generator (src/App.js): embedding and verification

    The file embeds [calculateWLCChain] and the frame callback of [DNAModel]
    from [src/App.js].  The JavaScript code works on

    - numbers (IEEE binary64 in the host, "real" in the specification): the
      code is written once over an interface [Number] and instantiated with
      Rocq's primitive binary64 floats, which are the numbers the code
      computes with, and with the real numbers, an idealization;
    - mutable [THREE.Vector3] objects and the plain object [externalForce]:
      they live in an explicit heap, methods mutate [this] in place and
      return the reference they were called on;
    - the local array [points], whose elements are fresh copies
      ([slice()]), carried as a list of triples. *)

From Stdlib Require Import ZArith List Lia Reals Lra Floats.
From stdpp Require Import base list.
Import ListNotations.

Set Default Proof Using "Type".

(** ** Numbers *)

(** What the code asks of a JavaScript number: the literals that occur in
    the source, the arithmetic operators, the [Math] functions, the
    conversion of the integer loop counter and [ToBoolean] (used by [||]). *)
Class Number (F : Type) : Type := {
  lit0 : F;                      (* 0 *)
  lit1 : F;                      (* 1 *)
  lit_half : F;                  (* 0.5 *)
  lit_step : F;                  (* 0.01 *)
  num_add : F -> F -> F;         (* x + y *)
  num_mul : F -> F -> F;         (* x * y *)
  num_div : F -> F -> F;         (* x / y *)
  num_pow_half : F -> F;         (* x ** 0.5 *)
  Math_sqrt : F -> F;
  Math_sin : F -> F;
  Math_cos : F -> F;
  of_int : Z -> F;               (* an integer-valued number *)
  truthy : F -> bool             (* ToBoolean *)
}.

Declare Scope num_scope.
Delimit Scope num_scope with num.
Infix "+" := num_add : num_scope.
Infix "*" := num_mul : num_scope.
Infix "/" := num_div : num_scope.

(** ** Objects with three numeric fields

    [THREE.Vector3] instances and the [{x, y, z}] object of the React state
    have the same shape. *)
Record Vec3 (F : Type) : Type := mkVec3 { vx : F; vy : F; vz : F }.
Arguments mkVec3 {F} _ _ _.
Arguments vx {F} _.
Arguments vy {F} _.
Arguments vz {F} _.

(** The outcome of running JavaScript code: a value, or an uncaught
    [TypeError] (a property read on [undefined]). *)
Inductive result (A : Type) : Type :=
| Ok (a : A)
| TypeError.
Arguments Ok {A} _.
Arguments TypeError {A}.

(** References to objects.  A reference a caller holds is to an object
    allocated before the call (JavaScript has no dangling references); the
    theorems assume it of [externalForce]. *)
Abbreviation loc := nat.

(** The heap: the objects allocated so far, addressed by position. *)
Abbreviation Heap F := (list (Vec3 F)).

Section Generator.
Context {F : Type} {NF : Number F}.
Local Open Scope num_scope.

(** A three-element array [[x, y, z]]. *)
Definition Point : Type := F * F * F.

(** *** The heap and the monad of heap computations *)

Definition M (A : Type) : Type := Heap F -> result (A * Heap F).

Definition ret {A} (a : A) : M A := fun h => Ok (a, h).

Definition bind {A B} (c : M A) (k : A -> M B) : M B :=
  fun h => match c h with
           | Ok (a, h') => k a h'
           | TypeError => TypeError
           end.

Definition throw {A} : M A := fun _ => TypeError.

(** Allocation of a fresh object. *)
Definition alloc (v : Vec3 F) : M loc :=
  fun h => Ok (length h, h ++ [v]).

(** Reading the fields of an object. *)
Definition load (l : loc) : M (Vec3 F) :=
  fun h => match h !! l with
           | Some v => Ok (v, h)
           | None => TypeError
           end.

(** Assigning the fields of an existing object. *)
Definition store (l : loc) (v : Vec3 F) : M unit :=
  fun h => match h !! l with
           | Some _ => Ok (tt, <[l := v]> h)
           | None => TypeError
           end.

Notation "'let*' x ':=' c 'in' k" := (bind c (fun x => k))
  (at level 10, x name, c at level 100, k at level 200).

(** *** Arithmetic on field triples *)

Definition vadd (a b : Vec3 F) : Vec3 F :=
  mkVec3 (vx a + vx b) (vy a + vy b) (vz a + vz b).

Definition vscale (a : Vec3 F) (s : F) : Vec3 F :=
  mkVec3 (vx a * s) (vy a * s) (vz a * s).

Definition vlength (a : Vec3 F) : F :=
  Math_sqrt (vx a * vx a + vy a * vy a + vz a * vz a).

(** [a || b] on numbers. *)
Definition js_or (a b : F) : F := if truthy a then a else b.

Definition vnormalize (a : Vec3 F) : Vec3 F :=
  vscale a (lit1 / js_or (vlength a) lit1).

(** *** three.js [Vector3] (external library)

    [add(v)] adds the fields of [v] to those of [this];
    [multiplyScalar(s)] multiplies the fields of [this] by [s];
    [divideScalar(s)] is [multiplyScalar(1 / s)];
    [length()] is [Math.sqrt(x*x + y*y + z*z)];
    [normalize()] is [divideScalar(length() || 1)].
    The mutators return [this]. *)

Definition new_Vector3 (x y z : F) : M loc := alloc (mkVec3 x y z).

Definition Vector3_add (this v : loc) : M loc :=
  let* a := load this in
  let* b := load v in
  let* _ := store this (vadd a b) in
  ret this.

Definition Vector3_multiplyScalar (this : loc) (s : F) : M loc :=
  let* a := load this in
  let* _ := store this (vscale a s) in
  ret this.

Definition Vector3_divideScalar (this : loc) (s : F) : M loc :=
  Vector3_multiplyScalar this (lit1 / s).

Definition Vector3_length (this : loc) : M F :=
  let* a := load this in
  ret (vlength a).

Definition Vector3_normalize (this : loc) : M loc :=
  let* len := Vector3_length this in
  Vector3_divideScalar this (js_or len lit1).

(** *** [calculateWLCChain] *)

(** [a[i]] on an array; [undefined] out of range. *)
Definition array_get {A} (a : list A) (i : Z) : option A :=
  if (i <? 0)%Z then None else a !! Z.to_nat i.

(** The variables of the function body that survive an iteration. *)
Record Locals : Type := mkLocals {
  points : list Point;
  direction : loc;
  force : loc
}.

(** The three arguments of [new THREE.Vector3(...)] at lines 36-40. *)
Definition fluctuation_fields (time thermalFluctuation : F) (i : Z)
  : Vec3 F :=
  mkVec3 ((Math_sin (time + of_int i) * lit_half) * thermalFluctuation)
         ((Math_cos (time + of_int i) * lit_half) * thermalFluctuation)
         ((Math_sin (time * lit_half) * lit_half) * thermalFluctuation).

(** [newPoint] after the three [+=] of lines 46-48. *)
Definition point_add (p : Point) (d : Vec3 F) : Point :=
  match p with
  | (p0, p1, p2) => (p0 + vx d, p1 + vy d, p2 + vz d)
  end.

(** Lines 36-50: one iteration of the loop. *)
Definition loop_body (time bendingRigidity thermalFluctuation : F)
           (i : Z) (s : Locals) : M Locals :=
  let f := fluctuation_fields time thermalFluctuation i in
  let* fluctuation := new_Vector3 (vx f) (vy f) (vz f) in
  let* d := Vector3_add (direction s) fluctuation in
  let* _ := Vector3_normalize d in
  let* scaled := Vector3_multiplyScalar (force s) (lit1 / bendingRigidity) in
  let* _ := Vector3_add (direction s) scaled in
  match array_get (points s) (i - 1) with
  | None => throw
  | Some prev =>
      let* dir := load (direction s) in
      let newPoint := point_add prev dir in
      ret (mkLocals (points s ++ [newPoint]) (direction s) (force s))
  end.

(** [for (let i = ...; ...; i++) body], by the number of iterations left. *)
Fixpoint for_loop (body : Z -> Locals -> M Locals)
         (n : nat) (i : Z) (s : Locals) : M Locals :=
  match n with
  | O => ret s
  | S n' => let* s' := body i s in for_loop body n' (i + 1)%Z s'
  end.

(** Line 30. *)
Definition thermal (persistenceLength temperature noiseLevel : F) : F :=
  num_pow_half (temperature / persistenceLength) * noiseLevel.

(** Lines 29-32: the variables before the loop. *)
Definition prologue (externalForce : loc) : M Locals :=
  let points := [(lit0, lit0, lit0)] in
  let* direction := new_Vector3 lit1 lit0 lit0 in
  let* ext := load externalForce in
  let* force := new_Vector3 (vx ext) (vy ext) (vz ext) in
  ret (mkLocals points direction force).

(** The function stopped after [n] iterations of its loop, with its
    variables; [calculateWLCChain] is this at [n = length - 1]. *)
Definition chain_steps (n : nat)
           (persistenceLength temperature time bendingRigidity noiseLevel : F)
           (externalForce : loc) : M Locals :=
  let thermalFluctuation :=
    thermal persistenceLength temperature noiseLevel in
  let* s := prologue externalForce in
  for_loop (loop_body time bendingRigidity thermalFluctuation) n 1%Z s.

(** The loop [for (let i = 1; i < length; i++)] runs [length - 1] times
    when [1 <= length] and not at all otherwise. *)
Definition calculateWLCChain (length : Z)
           (persistenceLength temperature time bendingRigidity noiseLevel : F)
           (externalForce : loc) : M (list Point) :=
  let* s := chain_steps (Z.to_nat (length - 1)) persistenceLength
              temperature time bendingRigidity noiseLevel externalForce in
  ret (points s).

(** *** [DNAModel] and [App]: the animation state *)

(** The props [App] passes to [DNAModel]; [externalForce] is an object. *)
Record Props : Type := mkProps {
  prop_length : Z;
  prop_persistenceLength : F;
  prop_temperature : F;
  prop_bendingRigidity : F;
  prop_noiseLevel : F;
  prop_externalForce : loc
}.

(** [timeRef.current], the heap, the current props and the [points]
    state of [DNAModel]. *)
Record World : Type := mkWorld {
  timeRef : F;
  heap : Heap F;
  props : Props;
  points_state : list Point
}.

(** Lines 60-64: the [useFrame] callback of [DNAModel]. *)
Definition DNAModel_frame (w : World) : result World :=
  let time := timeRef w + lit_step in
  let p := props w in
  match calculateWLCChain (prop_length p) (prop_persistenceLength p)
          (prop_temperature p) time (prop_bendingRigidity p)
          (prop_noiseLevel p) (prop_externalForce p) (heap w) with
  | Ok (newPoints, h) => Ok (mkWorld time h p newPoints)
  | TypeError => TypeError
  end.

(** The [onChange] handlers of the eight sliders of [App]. *)
Inductive Edit : Type :=
| SetLength (v : Z)
| SetPersistenceLength (v : F)
| SetTemperature (v : F)
| SetBendingRigidity (v : F)
| SetNoiseLevel (v : F)
| SetExternalForceX (v : F)
| SetExternalForceY (v : F)
| SetExternalForceZ (v : F).

(** [setExternalForce((prev) => ({ ...prev, x: v }))] and its siblings
    build a new object; the other setters replace one prop. *)
Definition replace_force (upd : Vec3 F -> Vec3 F) (w : World)
  : result World :=
  let p := props w in
  match bind (load (prop_externalForce p)) (fun prev => alloc (upd prev))
          (heap w) with
  | Ok (l, h) =>
      Ok (mkWorld (timeRef w) h
            (mkProps (prop_length p) (prop_persistenceLength p)
               (prop_temperature p) (prop_bendingRigidity p)
               (prop_noiseLevel p) l)
            (points_state w))
  | TypeError => TypeError
  end.

Definition with_props (f : Props -> Props) (w : World) : result World :=
  Ok (mkWorld (timeRef w) (heap w) (f (props w)) (points_state w)).

Definition App_onChange (e : Edit) (w : World) : result World :=
  match e with
  | SetLength v =>
      with_props (fun p => mkProps v (prop_persistenceLength p)
        (prop_temperature p) (prop_bendingRigidity p) (prop_noiseLevel p)
        (prop_externalForce p)) w
  | SetPersistenceLength v =>
      with_props (fun p => mkProps (prop_length p) v
        (prop_temperature p) (prop_bendingRigidity p) (prop_noiseLevel p)
        (prop_externalForce p)) w
  | SetTemperature v =>
      with_props (fun p => mkProps (prop_length p)
        (prop_persistenceLength p) v (prop_bendingRigidity p)
        (prop_noiseLevel p) (prop_externalForce p)) w
  | SetBendingRigidity v =>
      with_props (fun p => mkProps (prop_length p)
        (prop_persistenceLength p) (prop_temperature p) v
        (prop_noiseLevel p) (prop_externalForce p)) w
  | SetNoiseLevel v =>
      with_props (fun p => mkProps (prop_length p)
        (prop_persistenceLength p) (prop_temperature p)
        (prop_bendingRigidity p) v (prop_externalForce p)) w
  | SetExternalForceX v =>
      replace_force (fun prev => mkVec3 v (vy prev) (vz prev)) w
  | SetExternalForceY v =>
      replace_force (fun prev => mkVec3 (vx prev) v (vz prev)) w
  | SetExternalForceZ v =>
      replace_force (fun prev => mkVec3 (vx prev) (vy prev) v) w
  end.

(** What can happen to a mounted [App]: a display refresh or a slider
    edit. *)
Inductive Event : Type :=
| Frame
| Change (e : Edit).

Definition handle (ev : Event) (w : World) : result World :=
  match ev with
  | Frame => DNAModel_frame w
  | Change e => App_onChange e w
  end.

Fixpoint run (evs : list Event) (w : World) : result World :=
  match evs with
  | [] => Ok w
  | ev :: rest =>
      match handle ev w with
      | Ok w' => run rest w'
      | TypeError => TypeError
      end
  end.

(** Lines 57-58 and 70-75: the [useState] and [useRef] initial values. *)
Definition App_initial : World :=
  mkWorld lit0 [mkVec3 lit0 lit0 lit0]
    (mkProps 100 (of_int 50) (of_int 300) lit1 lit1 0%nat) [].

(** The number of display refreshes in a history. *)
Fixpoint frames (evs : list Event) : nat :=
  match evs with
  | [] => 0%nat
  | Frame :: rest => S (frames rest)
  | Change _ :: rest => frames rest
  end.

(** [externalForce] in the props is an object of the heap. *)
Definition valid_world (w : World) : Prop :=
  exists v, heap w !! prop_externalForce (props w) = Some v.

(** *** The recurrence the loop computes, on values

    The same iteration with the two vectors held as values instead of
    heap objects; [chain_steps_spec] below relates the two. *)

Record Pure : Type := mkPure {
  p_points : list Point;
  p_direction : Vec3 F;
  p_force : Vec3 F
}.

Definition origin : Point := (lit0, lit0, lit0).

(** The direction handed to [normalize] and its result. *)
Definition pre_normalize (time th : F) (i : Z) (s : Pure) : Vec3 F :=
  vadd (p_direction s) (fluctuation_fields time th i).

Definition pure_step (time bendingRigidity th : F) (i : Z) (s : Pure)
  : Pure :=
  let unit_dir := vnormalize (pre_normalize time th i s) in
  let scaled := vscale (p_force s) (lit1 / bendingRigidity) in
  let dir := vadd unit_dir scaled in
  mkPure (p_points s ++ [point_add (List.last (p_points s) origin) dir])
         dir scaled.

Fixpoint pure_steps (time bendingRigidity th : F) (n : nat) (i : Z)
         (s : Pure) : Pure :=
  match n with
  | O => s
  | S n' => pure_steps time bendingRigidity th n' (i + 1)%Z
              (pure_step time bendingRigidity th i s)
  end.

Definition pure_chain (n : nat)
           (persistenceLength temperature time bendingRigidity noiseLevel : F)
           (ext : Vec3 F) : Pure :=
  pure_steps time bendingRigidity
    (thermal persistenceLength temperature noiseLevel) n 1%Z
    (mkPure [origin] (mkVec3 lit1 lit0 lit0) ext).

(** [h'] extends [h]: every object of [h] is in [h'] with the same
    fields. *)
Definition extends (h h' : Heap F) : Prop :=
  forall l v, h !! l = Some v -> h' !! l = Some v.

End Generator.

Arguments Point F : clear implicits.
Arguments World F : clear implicits.
Arguments Props F : clear implicits.
Arguments Locals : clear implicits.
Arguments Pure F : clear implicits.
Arguments Event F : clear implicits.
Arguments Edit F : clear implicits.

(** ** Exact arithmetic: the real numbers

    The specification types every field as a real; this instance reads the
    operators as the exact ones.  [x ** 0.5] is the square root.

    It is an idealization of the numbers of the host: nothing is rounded,
    nothing overflows, there is no [NaN] and no infinity, and division and
    the square root are Rocq's total functions ([x / 0] is [0]).  It is
    used for the exact reading of the literal scenario and for the
    accumulated time.  What is said of the values the code computes is
    proved for every instance of [Number] or over [FloatNumber]. *)

Definition R_truthy (x : R) : bool :=
  if Req_dec_T x 0 then false else true.

Definition RealNumber : Number R := {|
  lit0 := 0%R;
  lit1 := 1%R;
  lit_half := (1 / 2)%R;
  lit_step := (1 / 100)%R;
  num_add := Rplus;
  num_mul := Rmult;
  num_div := Rdiv;
  num_pow_half := R_sqrt.sqrt;
  Math_sqrt := R_sqrt.sqrt;
  Math_sin := Rtrigo_def.sin;
  Math_cos := Rtrigo_def.cos;
  of_int := IZR;
  truthy := R_truthy
|}.

(** [q - p] on points, and the Euclidean length of a vector. *)
Definition point_sub (q p : Point R) : Vec3 R :=
  match q, p with
  | (q0, q1, q2), (p0, p1, p2) => mkVec3 (q0 - p0)%R (q1 - p1)%R (q2 - p2)%R
  end.

Definition euclidean_length (v : Vec3 R) : R :=
  R_sqrt.sqrt (vx v * vx v + vy v * vy v + vz v * vz v)%R.

(** ** IEEE binary64: the numbers of a JavaScript host

    The arithmetic operators and [Math.sqrt] are the correctly rounded
    binary64 ones.  ECMAScript fixes [Math.sin], [Math.cos] and [**] on the
    special values and leaves the rest to the host
    ("implementation-approximated"); the host's part is a parameter. *)

Record Host : Type := mkHost {
  host_sin : float -> float;
  host_cos : float -> float;
  host_pow_half : float -> float
}.

Definition js_sin (host : Host) (x : float) : float :=
  if PrimFloat.is_finite x
  then if PrimFloat.is_zero x then x else host_sin host x
  else PrimFloat.nan.

Definition js_cos (host : Host) (x : float) : float :=
  if PrimFloat.is_finite x
  then if PrimFloat.is_zero x then PrimFloat.one else host_cos host x
  else PrimFloat.nan.

Definition js_pow_half (host : Host) (x : float) : float :=
  if PrimFloat.is_nan x then PrimFloat.nan
  else if PrimFloat.is_infinity x then PrimFloat.infinity
  else if PrimFloat.is_zero x then PrimFloat.zero
  else if PrimFloat.ltb x PrimFloat.zero then PrimFloat.nan
  else host_pow_half host x.

Definition float_of_Z (z : Z) : float :=
  match z with
  | Z0 => PrimFloat.zero
  | Zpos _ => PrimFloat.of_uint63 (Uint63.of_Z z)
  | Zneg p => PrimFloat.opp (PrimFloat.of_uint63 (Uint63.of_Z (Zpos p)))
  end.

Definition float_truthy (x : float) : bool :=
  negb (PrimFloat.is_zero x || PrimFloat.is_nan x).

Definition FloatNumber (host : Host) : Number float := {|
  lit0 := PrimFloat.zero;
  lit1 := PrimFloat.one;
  lit_half := 0.5%float;
  lit_step := 0x1.47ae147ae147bp-7%float;
  num_add := PrimFloat.add;
  num_mul := PrimFloat.mul;
  num_div := PrimFloat.div;
  num_pow_half := js_pow_half host;
  Math_sqrt := PrimFloat.sqrt;
  Math_sin := js_sin host;
  Math_cos := js_cos host;
  of_int := float_of_Z;
  truthy := float_truthy
|}.

(** A number that is neither [NaN] nor infinite. *)
Definition finite (x : float) : Prop := PrimFloat.is_finite x = true.

Definition non_finite (x : float) : Prop := PrimFloat.is_finite x = false.

Definition point_non_finite (p : Point float) : Prop :=
  match p with
  | (a, b, c) => non_finite a /\ non_finite b /\ non_finite c
  end.

Definition vec_non_finite (v : Vec3 float) : Prop :=
  non_finite (vx v) /\ non_finite (vy v) /\ non_finite (vz v).

(** [NaN] and the infinities, on the specification side of binary64. *)
Definition sf_non_finite (s : spec_float) : bool :=
  match s with
  | S754_nan | S754_infinity _ => true
  | _ => false
  end.

(** A host to run the code on: short Taylor polynomials for the
    trigonometric functions and the correctly rounded square root. *)
Definition sample_host : Host :=
  mkHost (fun x => x - x * x * x / 6)%float
         (fun x => 1 - x * x / 2)%float
         PrimFloat.sqrt.

(** The numbers of that host. *)
Definition SampleNumber : Number float := FloatNumber sample_host.

(** *** Zeros and their signs

    Binary64 has two zeros.  [0 * r] is [-0] for a negative [r], so the
    force terms and the fluctuations of two calls can differ in the sign
    of a zero where they are equal as numbers. *)

(** Equal, or both zeros. *)
Definition num_eq (x y : float) : Prop :=
  x = y \/ (PrimFloat.is_zero x = true /\ PrimFloat.is_zero y = true).

Definition vec_eq (u v : Vec3 float) : Prop :=
  num_eq (vx u) (vx v) /\ num_eq (vy u) (vy v) /\ num_eq (vz u) (vz v).

(** A vector whose three fields are zeros, of either sign. *)
Definition vec_zero (v : Vec3 float) : Prop :=
  PrimFloat.is_zero (vx v) = true /\ PrimFloat.is_zero (vy v) = true
  /\ PrimFloat.is_zero (vz v) = true.

Definition neg_zero (x : float) : Prop := Prim2SF x = S754_zero true.

Definition point_no_neg_zero (p : Point float) : Prop :=
  match p with
  | (a, b, c) => ~ neg_zero a /\ ~ neg_zero b /\ ~ neg_zero c
  end.

(** [Math.sin] and [Math.cos] return finite numbers at the arguments the
    loop of a call with this [time] and [length] passes them: [time * 0.5]
    and [time + i] for [1 <= i < length]. *)
Definition trig_finite (host : Host) (time : float) (len : Z) : Prop :=
  finite (js_sin host (time * 0.5)%float)
  /\ forall i : Z, (1 <= i < len)%Z ->
       finite (js_sin host (time + float_of_Z i)%float)
       /\ finite (js_cos host (time + float_of_Z i)%float).

(** The points [(0,0,0), (0+1,0,0), (0+1+1,0,0), ...], [n + 1] of them,
    the sums being binary64 sums. *)
Definition float_axis_points (n : nat) : list (Point float) :=
  map (fun k => (Nat.iter k (fun x => x + 1)%float 0%float, 0%float, 0%float))
      (seq 0 (S n)).

(** The Euclidean length of the segment from [p] to [q], computed in
    binary64. *)
Definition segment_length (q p : Point float) : float :=
  match q, p with
  | (q0, q1, q2), (p0, p1, p2) =>
      PrimFloat.sqrt ((q0 - p0) * (q0 - p0) + (q1 - p1) * (q1 - p1)
                      + (q2 - p2) * (q2 - p2))%float
  end.

(** ** [DNASegment]: the position buffer of the line

    A [Float32Array] is a list of fixed length; the conversion a write
    applies to a number (rounding to binary32) and the zero a new array
    is filled with are parameters. *)

(** What running the frame callback of [DNASegment] can raise. *)
Inductive Exception : Type :=
| RangeErr     (* RangeError: a write past the end of a typed array *)
| TypeErr.     (* TypeError: a property read on [undefined] *)

Inductive completion (A : Type) : Type :=
| Normal (a : A)
| Throw (e : Exception).
Arguments Normal {A} _.
Arguments Throw {A} _.

(** [THREE.BufferAttribute]: the array, the item size and the
    [needsUpdate] flag. *)
Record BufferAttribute (G : Type) : Type := mkBufferAttribute {
  attr_array : list G;
  attr_itemSize : nat;
  attr_needsUpdate : bool
}.
Arguments mkBufferAttribute {G} _ _ _.
Arguments attr_array {G} _.
Arguments attr_itemSize {G} _.
Arguments attr_needsUpdate {G} _.

Section Renderer.
Context {F G : Type}.
Variable fround : F -> G.
Variable f32_zero : G.

(** [new Float32Array(n)]. *)
Definition Float32Array_new (n : nat) : list G := replicate n f32_zero.

(** [target.set(source, offset)]: a [RangeError] when the source does not
    fit at the offset, else the elements of the source are written to
    [target[offset]], [target[offset + 1]], ... *)
Definition Float32Array_set (target : list G) (source : list F)
           (offset : nat) : completion (list G) :=
  if (offset + length source <=? length target)%nat
  then Normal (list_inserts offset (map fround source) target)
  else Throw RangeErr.

(** The array [[x, y, z]] of a point. *)
Definition point_array (p : Point F) : list F :=
  match p with
  | (p0, p1, p2) => [p0; p1; p2]
  end.

(** Lines 12-14: [for (let i = 0; i < points.length; i++)
    positions.set(points[i], i * 3)], by the number of iterations left. *)
Fixpoint fill_positions (points : list (Point F)) (n : nat) (i : nat)
         (positions : list G) : completion (list G) :=
  match n with
  | O => Normal positions
  | S n' =>
      match points !! i with
      | None => Throw TypeErr
      | Some p =>
          match Float32Array_set positions (point_array p) (i * 3) with
          | Normal positions' => fill_positions points n' (S i) positions'
          | Throw e => Throw e
          end
      end
  end.

(** Lines 9-18: the [useFrame] callback of [DNASegment].  [lineRef] is
    [lineRef.current]: [None] before the line is mounted, else the
    position attribute of its geometry, if one was set.  The result is the
    new [lineRef.current]. *)
Definition DNASegment_frame (lineRef : option (option (BufferAttribute G)))
           (points : list (Point F))
  : completion (option (option (BufferAttribute G))) :=
  match lineRef with
  | None => Normal None
  | Some _ =>
      match fill_positions points (length points) 0
              (Float32Array_new (length points * 3)) with
      | Normal positions =>
          Normal (Some (Some (mkBufferAttribute positions 3 true)))
      | Throw e => Throw e
      end
  end.

(** The coordinates of the points one after the other, as written to the
    buffer. *)
Definition flat_positions (points : list (Point F)) : list G :=
  flat_map (fun p => map fround (point_array p)) points.

End Renderer.

(** ** What [DNAModel] reads at a frame

    The values behind the props: the five numbers and the fields of the
    [externalForce] object. *)
Definition props_view {F : Type} (w : World F)
  : option (Z * F * F * F * F * Vec3 F) :=
  match heap w !! prop_externalForce (props w) with
  | Some v =>
      Some (prop_length (props w), prop_persistenceLength (props w),
            prop_temperature (props w), prop_bendingRigidity (props w),
            prop_noiseLevel (props w), v)
  | None => None
  end.

(** Whether two edits come from the same slider. *)
Definition same_slider {F : Type} (e1 e2 : Edit F) : bool :=
  match e1, e2 with
  | SetLength _, SetLength _
  | SetPersistenceLength _, SetPersistenceLength _
  | SetTemperature _, SetTemperature _
  | SetBendingRigidity _, SetBendingRigidity _
  | SetNoiseLevel _, SetNoiseLevel _
  | SetExternalForceX _, SetExternalForceX _
  | SetExternalForceY _, SetExternalForceY _
  | SetExternalForceZ _, SetExternalForceZ _ => true
  | _, _ => false
  end.

(** * Facts about the embedding *)

Section GeneratorFacts.
Context {F : Type} {NF : Number F}.

(** ** Heap operations *)

Lemma bind_ok {A B} (c : M A) (k : A -> M B) (h h' : Heap F) (a : A) :
  c h = Ok (a, h') -> bind c k h = k a h'.
Proof. intros Hc. unfold bind. now rewrite Hc. Qed.

Lemma load_ok (h : Heap F) (l : loc) (v : Vec3 F) :
  h !! l = Some v -> load l h = Ok (v, h).
Proof. intros Hl. unfold load. now rewrite Hl. Qed.

Lemma store_ok (h : Heap F) (l : loc) (v w : Vec3 F) :
  h !! l = Some w -> store l v h = Ok (tt, <[l := v]> h).
Proof. intros Hl. unfold store. now rewrite Hl. Qed.

Lemma lookup_stored (h : Heap F) (l : loc) (v w : Vec3 F) :
  h !! l = Some w -> <[l := v]> h !! l = Some v.
Proof.
  intros Hl. apply list_lookup_insert_eq. now apply lookup_lt_Some in Hl.
Qed.

Lemma lookup_alloc_old (h : Heap F) (l : loc) (v w : Vec3 F) :
  h !! l = Some w -> (h ++ [v]) !! l = Some w.
Proof. intros Hl. now apply lookup_app_l_Some. Qed.

Lemma lookup_alloc_new (h : Heap F) (v : Vec3 F) :
  (h ++ [v]) !! length h = Some v.
Proof.
  rewrite lookup_app_r by lia.
  now replace (length h - length h)%nat with 0%nat by lia.
Qed.

Lemma Vector3_add_ok (h : Heap F) (this v : loc) (a b : Vec3 F) :
  h !! this = Some a -> h !! v = Some b ->
  Vector3_add this v h = Ok (this, <[this := vadd a b]> h).
Proof.
  intros Ha Hb. unfold Vector3_add.
  rewrite (bind_ok _ _ _ _ _ (load_ok _ _ _ Ha)).
  rewrite (bind_ok _ _ _ _ _ (load_ok _ _ _ Hb)).
  now rewrite (bind_ok _ _ _ _ _ (store_ok _ _ _ _ Ha)).
Qed.

Lemma Vector3_multiplyScalar_ok (h : Heap F) (this : loc) (s : F)
      (a : Vec3 F) :
  h !! this = Some a ->
  Vector3_multiplyScalar this s h = Ok (this, <[this := vscale a s]> h).
Proof.
  intros Ha. unfold Vector3_multiplyScalar.
  rewrite (bind_ok _ _ _ _ _ (load_ok _ _ _ Ha)).
  now rewrite (bind_ok _ _ _ _ _ (store_ok _ _ _ _ Ha)).
Qed.

Lemma Vector3_normalize_ok (h : Heap F) (this : loc) (a : Vec3 F) :
  h !! this = Some a ->
  Vector3_normalize this h = Ok (this, <[this := vnormalize a]> h).
Proof.
  intros Ha. unfold Vector3_normalize, Vector3_length, Vector3_divideScalar.
  rewrite (bind_ok _ (fun len => _) h h (vlength a)).
  - now apply Vector3_multiplyScalar_ok.
  - now rewrite (bind_ok _ _ _ _ _ (load_ok _ _ _ Ha)).
Qed.

(** ** The array of points *)

Lemma lookup_last {A} (l : list A) (d : A) :
  l <> [] -> l !! (length l - 1)%nat = Some (List.last l d).
Proof.
  induction l as [|a [|b l'] IH]; intros Hne.
  - congruence.
  - reflexivity.
  - specialize (IH ltac:(discriminate)).
    replace (length (a :: b :: l') - 1)%nat with (S (length (b :: l') - 1))
      by (simpl; lia).
    exact IH.
Qed.

Lemma array_get_last {A} (l : list A) (d : A) (i : Z) :
  (1 <= i)%Z -> Z.of_nat (length l) = i ->
  array_get l (i - 1) = Some (List.last l d).
Proof.
  intros Hi Hlen. unfold array_get.
  destruct (Z.ltb_spec (i - 1) 0) as [Hneg|_]; [lia|].
  replace (Z.to_nat (i - 1)) with (length l - 1)%nat by lia.
  apply lookup_last. destruct l; simpl in *; [lia | discriminate].
Qed.

(** ** One iteration *)

(** On a heap that holds the two vectors as distinct objects, an
    iteration returns: it appends one point, leaves [direction] and
    [force] as the recurrence says and touches no other object. *)
Lemma loop_body_spec (time b th : F) (i : Z) (pts : list (Point F))
      (d f : loc) (dv fv : Vec3 F) (h : Heap F) :
  d <> f -> h !! d = Some dv -> h !! f = Some fv ->
  (1 <= i)%Z -> Z.of_nat (length pts) = i ->
  let P := pure_step time b th i (mkPure pts dv fv) in
  exists h',
    loop_body time b th i (mkLocals pts d f) h
      = Ok (mkLocals (p_points P) d f, h')
    /\ h' !! d = Some (p_direction P)
    /\ h' !! f = Some (p_force P)
    /\ (forall l v, l <> d -> l <> f -> h !! l = Some v -> h' !! l = Some v).
Proof.
  intros Hdf Hd Hf Hi Hlen P.
  set (fl := fluctuation_fields time th i).
  set (h1 := h ++ [fl]).
  assert (Hd1 : h1 !! d = Some dv) by now apply lookup_alloc_old.
  assert (Hf1 : h1 !! f = Some fv) by now apply lookup_alloc_old.
  assert (Hfl : h1 !! length h = Some fl) by apply lookup_alloc_new.
  set (h2 := <[d := vadd dv fl]> h1).
  assert (Hd2 : h2 !! d = Some (vadd dv fl)) by now apply lookup_stored with dv.
  set (h3 := <[d := vnormalize (vadd dv fl)]> h2).
  assert (Hd3 : h3 !! d = Some (vnormalize (vadd dv fl)))
    by now apply lookup_stored with (vadd dv fl).
  assert (Hf3 : h3 !! f = Some fv).
  { unfold h3, h2. rewrite !list_lookup_insert_ne by congruence. exact Hf1. }
  set (h4 := <[f := vscale fv (lit1 / b)%num]> h3).
  assert (Hf4 : h4 !! f = Some (vscale fv (lit1 / b)%num))
    by now apply lookup_stored with fv.
  assert (Hd4 : h4 !! d = Some (vnormalize (vadd dv fl))).
  { unfold h4. rewrite list_lookup_insert_ne by congruence. exact Hd3. }
  set (h5 := <[d := p_direction P]> h4).
  exists h5. split; [|split; [|split]].
  - unfold loop_body. cbn [direction force points].
    unfold new_Vector3.
    rewrite (bind_ok _ _ h h1 (length h)) by reflexivity.
    rewrite (bind_ok _ _ _ _ _ (Vector3_add_ok _ _ _ _ _ Hd1 Hfl)).
    fold h2.
    rewrite (bind_ok _ _ _ _ _ (Vector3_normalize_ok _ _ _ Hd2)).
    fold h3.
    rewrite (bind_ok _ _ _ _ _ (Vector3_multiplyScalar_ok _ _ _ _ Hf3)).
    fold h4.
    rewrite (bind_ok _ _ _ _ _ (Vector3_add_ok _ _ _ _ _ Hd4 Hf4)).
    rewrite (array_get_last pts origin i Hi Hlen).
    change (<[d:=vadd (vnormalize (vadd dv fl)) (vscale fv (lit1 / b)%num)]> h4)
      with h5.
    assert (Hd5 : h5 !! d = Some (p_direction P))
      by now apply lookup_stored with (vnormalize (vadd dv fl)).
    now rewrite (bind_ok _ _ _ _ _ (load_ok _ _ _ Hd5)).
  - now apply lookup_stored with (vnormalize (vadd dv fl)).
  - unfold h5. rewrite list_lookup_insert_ne by congruence. exact Hf4.
  - intros l v Hld Hlf Hl. unfold h5, h4, h3, h2.
    rewrite !list_lookup_insert_ne by congruence.
    now apply lookup_alloc_old.
Qed.

(** ** The loop *)

Lemma pure_steps_length (time b th : F) (n : nat) (i : Z) (s : Pure F) :
  length (p_points (pure_steps time b th n i s))
  = (length (p_points s) + n)%nat.
Proof.
  revert i s. induction n as [|n IH]; intros i s; simpl.
  - lia.
  - rewrite IH. simpl. rewrite length_app. simpl. lia.
Qed.

Lemma pure_steps_head (time b th : F) (n : nat) (i : Z) (s : Pure F)
      (p : Point F) :
  p_points s !! 0%nat = Some p ->
  p_points (pure_steps time b th n i s) !! 0%nat = Some p.
Proof.
  revert i s. induction n as [|n IH]; intros i s Hp; simpl.
  - exact Hp.
  - apply IH. simpl. now apply lookup_app_l_Some.
Qed.

Lemma pure_steps_snoc (time b th : F) (n : nat) (i : Z) (s : Pure F) :
  pure_steps time b th (S n) i s
  = pure_step time b th (i + Z.of_nat n)
      (pure_steps time b th n i s).
Proof.
  revert i s. induction n as [|n IH]; intros i s.
  - simpl. now rewrite Z.add_0_r.
  - change (pure_steps time b th (S (S n)) i s)
      with (pure_steps time b th (S n) (i + 1) (pure_step time b th i s)).
    rewrite IH. simpl pure_steps at 2.
    now replace (i + 1 + Z.of_nat n)%Z with (i + Z.of_nat (S n))%Z by lia.
Qed.

(** The loop returns and computes the recurrence. *)
Lemma for_loop_spec (time b th : F) (n : nat) :
  forall (i : Z) (pts : list (Point F)) (d f : loc) (dv fv : Vec3 F)
         (h : Heap F),
  d <> f -> h !! d = Some dv -> h !! f = Some fv ->
  (1 <= i)%Z -> Z.of_nat (length pts) = i ->
  let P := pure_steps time b th n i (mkPure pts dv fv) in
  exists h',
    for_loop (loop_body time b th) n i (mkLocals pts d f) h
      = Ok (mkLocals (p_points P) d f, h')
    /\ h' !! d = Some (p_direction P)
    /\ h' !! f = Some (p_force P)
    /\ (forall l v, l <> d -> l <> f -> h !! l = Some v -> h' !! l = Some v).
Proof.
  induction n as [|n IH]; intros i pts d f dv fv h Hdf Hd Hf Hi Hlen P.
  - exists h. subst P. simpl. repeat split; auto.
  - destruct (loop_body_spec time b th i pts d f dv fv h Hdf Hd Hf Hi Hlen)
      as (h1 & Hrun & Hd1 & Hf1 & Hfr1).
    set (Q := pure_step time b th i (mkPure pts dv fv)) in *.
    assert (HlenQ : Z.of_nat (length (p_points Q)) = (i + 1)%Z).
    { unfold Q. simpl. rewrite length_app. simpl. lia. }
    destruct (IH (i + 1)%Z (p_points Q) d f (p_direction Q) (p_force Q) h1
                Hdf Hd1 Hf1 ltac:(lia) HlenQ)
      as (h2 & Hrun2 & Hd2 & Hf2 & Hfr2).
    exists h2. subst P.
    change (pure_steps time b th (S n) i (mkPure pts dv fv))
      with (pure_steps time b th n (i + 1) Q).
    replace Q with (mkPure (p_points Q) (p_direction Q) (p_force Q))
      at 1 2 3 by reflexivity.
    split; [|split; [|split]]; auto.
    simpl for_loop. now rewrite (bind_ok _ _ _ _ _ Hrun).
Qed.

Lemma pure_steps_prefix (time b th : F) (n : nat) (i : Z) (s : Pure F)
      (k : nat) (p : Point F) :
  p_points s !! k = Some p ->
  p_points (pure_steps time b th n i s) !! k = Some p.
Proof.
  revert i s. induction n as [|n IH]; intros i s Hp; simpl.
  - exact Hp.
  - apply IH. simpl. now apply lookup_app_l_Some.
Qed.

Lemma pure_steps_add (time b th : F) (n m : nat) (i : Z) (s : Pure F) :
  pure_steps time b th (n + m) i s
  = pure_steps time b th m (i + Z.of_nat n) (pure_steps time b th n i s).
Proof.
  revert i s. induction n as [|n IH]; intros i s.
  - simpl. now rewrite Z.add_0_r.
  - change (pure_steps time b th (S n + m) i s)
      with (pure_steps time b th (n + m) (i + 1) (pure_step time b th i s)).
    rewrite IH. simpl pure_steps at 2.
    now replace (i + 1 + Z.of_nat n)%Z with (i + Z.of_nat (S n))%Z by lia.
Qed.

(** The points of the recurrence: the one appended by iteration [S k] is
    the one before it plus the direction iteration [S k] leaves. *)
Lemma pure_chain_segment (n k : nat) (pl temp time b noise : F)
      (ext : Vec3 F) :
  (S k <= n)%nat ->
  exists p,
    p_points (pure_chain n pl temp time b noise ext) !! k = Some p
    /\ p_points (pure_chain n pl temp time b noise ext) !! S k
       = Some (point_add p
                 (p_direction (pure_chain (S k) pl temp time b noise ext))).
Proof.
  intros Hk. unfold pure_chain.
  set (th := thermal pl temp noise).
  set (s0 := mkPure [origin] (mkVec3 lit1 lit0 lit0) ext).
  replace n with (S k + (n - S k))%nat by lia.
  rewrite pure_steps_add.
  set (Pk := pure_steps time b th k 1 s0).
  assert (Hlen : length (p_points Pk) = S k).
  { unfold Pk. rewrite pure_steps_length. simpl. lia. }
  assert (Hlast : p_points Pk !! k = Some (List.last (p_points Pk) origin)).
  { replace k with (length (p_points Pk) - 1)%nat at 1 by lia.
    apply lookup_last. destruct (p_points Pk); simpl in *; [lia|discriminate]. }
  exists (List.last (p_points Pk) origin).
  rewrite pure_steps_snoc. fold Pk.
  split; apply pure_steps_prefix; simpl.
  - now apply lookup_app_l_Some.
  - rewrite <- Hlen. rewrite lookup_app_r by lia.
    now replace (length (p_points Pk) - length (p_points Pk))%nat
      with 0%nat by lia.
Qed.

(** Iteration [S n] starts from the state iteration [n] left. *)
Lemma pure_chain_S (n : nat) (pl temp time b noise : F) (ext : Vec3 F) :
  pure_chain (S n) pl temp time b noise ext
  = pure_step time b (thermal pl temp noise) (1 + Z.of_nat n)
      (pure_chain n pl temp time b noise ext).
Proof. unfold pure_chain. apply pure_steps_snoc. Qed.

(** The loop after [S n] iterations is the loop after [n] iterations
    followed by one more run of the body. *)
Lemma for_loop_snoc (body : Z -> Locals F -> M (Locals F)) (n : nat) :
  forall (i : Z) (s : Locals F) (h : Heap F),
  for_loop body (S n) i s h
  = bind (for_loop body n i s) (body (i + Z.of_nat n)%Z) h.
Proof.
  induction n as [|n IH]; intros i s h.
  - simpl. unfold bind, ret. rewrite Z.add_0_r.
    destruct (body i s h) as [[s' h']|]; reflexivity.
  - change (for_loop body (S (S n)) i s h)
      with (bind (body i s) (for_loop body (S n) (i + 1)) h).
    simpl for_loop at 2. unfold bind at 1 2 3.
    destruct (body i s h) as [[s' h']|]; [|reflexivity].
    rewrite IH. unfold bind.
    now replace (i + 1 + Z.of_nat n)%Z with (i + Z.of_nat (S n))%Z by lia.
Qed.

Lemma chain_steps_S (n : nat) (pl temp time b noise : F) (e : loc)
      (h : Heap F) :
  chain_steps (S n) pl temp time b noise e h
  = bind (chain_steps n pl temp time b noise e)
      (loop_body time b (thermal pl temp noise) (1 + Z.of_nat n)%Z) h.
Proof.
  unfold chain_steps.
  change (bind (prologue e) ?k h) with
    (match prologue e h with Ok (a, h') => k a h' | TypeError => TypeError end).
  unfold bind at 1.
  change (bind (prologue e) ?k ?h0) with
    (match prologue e h0 with Ok (a, h') => k a h' | TypeError => TypeError end).
  destruct (prologue e h) as [[s h']|]; [|reflexivity].
  apply for_loop_snoc.
Qed.

(** A loop of [n + m] iterations is a loop of [n] iterations followed by
    a loop of [m] iterations. *)
Lemma for_loop_add (body : Z -> Locals F -> M (Locals F)) (n m : nat) :
  forall (i : Z) (s : Locals F) (h : Heap F),
  for_loop body (n + m) i s h
  = bind (for_loop body n i s) (for_loop body m (i + Z.of_nat n)%Z) h.
Proof.
  induction n as [|n IH]; intros i s h.
  - simpl. unfold bind, ret. now rewrite Z.add_0_r.
  - change (for_loop body (S n + m) i s h)
      with (bind (body i s) (for_loop body (n + m) (i + 1)) h).
    simpl for_loop at 2. unfold bind at 1 2 3.
    destruct (body i s h) as [[s' h']|]; [|reflexivity].
    rewrite IH. unfold bind.
    now replace (i + 1 + Z.of_nat n)%Z with (i + Z.of_nat (S n))%Z by lia.
Qed.

(** A call with [length = len] passes through the state [chain_steps i]
    returns, for every [i <= len - 1], and runs the remaining iterations
    from it. *)
Lemma calculateWLCChain_from_step (len : Z) (i : nat)
      (pl temp time b noise : F) (e : loc) (h h' : Heap F) (s : Locals F) :
  (Z.of_nat i < len)%Z ->
  chain_steps i pl temp time b noise e h = Ok (s, h') ->
  calculateWLCChain len pl temp time b noise e h
  = bind (for_loop (loop_body time b (thermal pl temp noise))
            (Z.to_nat (len - 1) - i) (1 + Z.of_nat i)%Z s)
      (fun s' => ret (points s')) h'.
Proof.
  intros Hi Hrun. unfold calculateWLCChain.
  replace (Z.to_nat (len - 1)) with (i + (Z.to_nat (len - 1) - i))%nat
    at 1 by lia.
  unfold chain_steps in *.
  set (body := loop_body time b (thermal pl temp noise)) in *.
  set (rest := (Z.to_nat (len - 1) - i)%nat).
  unfold bind in Hrun |- *.
  destruct (prologue e h) as [[s0 h0]|]; [|discriminate].
  rewrite for_loop_add. unfold bind. now rewrite Hrun.
Qed.

(** The running force after [n] iterations is [externalForce] scaled [n]
    times by [1 / bendingRigidity], whatever the numbers are. *)
Lemma pure_chain_force_iter (n : nat) (pl temp time b noise : F)
      (ext : Vec3 F) :
  p_force (pure_chain n pl temp time b noise ext)
  = Nat.iter n (fun v => vscale v (num_div lit1 b)) ext.
Proof.
  induction n as [|n IH]; [reflexivity|].
  rewrite pure_chain_S. cbn [p_force pure_step]. now rewrite IH.
Qed.

(** ** The whole function *)

(** On a heap where [externalForce] is an object, the function stopped
    after [n] iterations returns the recurrence's points; its two
    vectors are new objects and every object of the caller is as
    before. *)
Lemma chain_steps_spec (n : nat) (pl temp time b noise : F) (e : loc)
      (ext : Vec3 F) (h : Heap F) :
  h !! e = Some ext ->
  let P := pure_chain n pl temp time b noise ext in
  exists h',
    chain_steps n pl temp time b noise e h
      = Ok (mkLocals (p_points P) (length h) (S (length h)), h')
    /\ h' !! length h = Some (p_direction P)
    /\ h' !! S (length h) = Some (p_force P)
    /\ extends h h'.
Proof.
  intros He P.
  set (h1 := h ++ [mkVec3 lit1 lit0 lit0]).
  set (h2 := h1 ++ [ext]).
  assert (Hlen1 : length h1 = S (length h)).
  { unfold h1. rewrite length_app. simpl. lia. }
  assert (Hd : h2 !! length h = Some (mkVec3 lit1 lit0 lit0)).
  { unfold h2. apply lookup_alloc_old. apply lookup_alloc_new. }
  assert (Hf : h2 !! S (length h) = Some ext).
  { unfold h2. rewrite <- Hlen1. apply lookup_alloc_new. }
  destruct (for_loop_spec time b (thermal pl temp noise) n 1%Z [origin]
              (length h) (S (length h)) (mkVec3 lit1 lit0 lit0) ext h2
              ltac:(lia) Hd Hf ltac:(lia) eq_refl)
    as (h' & Hrun & Hd' & Hf' & Hfr).
  exists h'. split; [|split; [|split]]; auto.
  - unfold chain_steps, prologue, new_Vector3.
    rewrite (bind_ok _ _ h h2 (mkLocals [origin] (length h) (S (length h)))).
    + exact Hrun.
    + rewrite (bind_ok _ _ h h1 (length h)) by reflexivity.
      assert (He1 : h1 !! e = Some ext) by now apply lookup_alloc_old.
      rewrite (bind_ok _ _ _ _ _ (load_ok _ _ _ He1)).
      rewrite (bind_ok _ _ h1 h2 (length h1)) by (destruct ext; reflexivity).
      now rewrite Hlen1.
  - intros l v Hl. pose proof (lookup_lt_Some _ _ _ Hl) as Hlt.
    apply Hfr; [lia | lia |].
    unfold h2, h1. now do 2 apply lookup_alloc_old.
Qed.

Lemma calculateWLCChain_spec (len : Z) (pl temp time b noise : F)
      (e : loc) (ext : Vec3 F) (h : Heap F) :
  h !! e = Some ext ->
  exists h',
    calculateWLCChain len pl temp time b noise e h
      = Ok (p_points (pure_chain (Z.to_nat (len - 1)) pl temp time b
                        noise ext), h')
    /\ extends h h'.
Proof.
  intros He.
  destruct (chain_steps_spec (Z.to_nat (len - 1)) pl temp time b noise e
              ext h He) as (h' & Hrun & _ & _ & Hext).
  exists h'. split; [|exact Hext].
  unfold calculateWLCChain. now rewrite (bind_ok _ _ _ _ _ Hrun).
Qed.



(** Scaling a vector [n] times scales each field [n] times. *)
Lemma iter_vscale_fields (n : nat) (r x y z : F) :
  Nat.iter n (fun v => vscale v r) (mkVec3 x y z)
  = mkVec3 (Nat.iter n (fun c => num_mul c r) x)
           (Nat.iter n (fun c => num_mul c r) y)
           (Nat.iter n (fun c => num_mul c r) z).
Proof.
  induction n as [|n IH]; [reflexivity|].
  simpl. now rewrite IH.
Qed.

End GeneratorFacts.

(** * The claims that hold for every reading of the numbers *)

Section StructuralClaims.
Context {F : Type} {NF : Number F}.

(** C3 (output length): a call with an integer [length >= 1], any values
    of the other parameters and [externalForce] an object returns, and
    the sequence it returns has exactly [length] points. *)
Theorem calculateWLCChain_length (len : Z) (pl temp time b noise : F)
        (e : loc) (ext : Vec3 F) (h : Heap F) :
  (1 <= len)%Z ->
  h !! e = Some ext ->
  exists pts h',
    calculateWLCChain len pl temp time b noise e h = Ok (pts, h')
    /\ Z.of_nat (length pts) = len.
Proof.
  intros Hlen He.
  destruct (calculateWLCChain_spec len pl temp time b noise e ext h He)
    as (h' & Hrun & _).
  eexists _, h'. split; [exact Hrun|].
  unfold pure_chain. rewrite pure_steps_length. simpl. lia.
Qed.

(** C4 (origin anchor): whatever the parameters, also for [length < 1],
    a call returns and the first point of its result is [(0, 0, 0)]. *)
Theorem calculateWLCChain_origin (len : Z) (pl temp time b noise : F)
        (e : loc) (ext : Vec3 F) (h : Heap F) :
  h !! e = Some ext ->
  exists pts h',
    calculateWLCChain len pl temp time b noise e h = Ok (pts, h')
    /\ pts !! 0%nat = Some (lit0, lit0, lit0).
Proof.
  intros He.
  destruct (calculateWLCChain_spec len pl temp time b noise e ext h He)
    as (h' & Hrun & _).
  eexists _, h'. split; [exact Hrun|].
  unfold pure_chain. now apply pure_steps_head.
Qed.

(** C5 (determinism): two calls with the same numbers and with
    [externalForce] objects of equal fields return the same points,
    whatever else the two heaps hold.  A call changes no object that
    existed before it, so calling again on the heap the first call left
    behind returns the same points once more. *)
Theorem calculateWLCChain_deterministic (len : Z)
        (pl temp time b noise : F) (e1 e2 : loc) (ext : Vec3 F)
        (h1 h2 : Heap F) :
  h1 !! e1 = Some ext ->
  h2 !! e2 = Some ext ->
  exists pts h1' h2' h1'',
    calculateWLCChain len pl temp time b noise e1 h1 = Ok (pts, h1')
    /\ calculateWLCChain len pl temp time b noise e2 h2 = Ok (pts, h2')
    /\ extends h1 h1' /\ extends h2 h2'
    /\ calculateWLCChain len pl temp time b noise e1 h1' = Ok (pts, h1'').
Proof.
  intros He1 He2.
  destruct (calculateWLCChain_spec len pl temp time b noise e1 ext h1 He1)
    as (h1' & Hrun1 & Hext1).
  destruct (calculateWLCChain_spec len pl temp time b noise e2 ext h2 He2)
    as (h2' & Hrun2 & Hext2).
  destruct (calculateWLCChain_spec len pl temp time b noise e1 ext h1'
              (Hext1 _ _ He1)) as (h1'' & Hrun3 & _).
  eexists _, h1', h2', h1''. repeat split; eauto.
Qed.

End StructuralClaims.

Lemma calculateWLCChain_length_witness :
  exists pts h',
    calculateWLCChain (NF := RealNumber) 3 50%R 300%R 0%R 1%R 0%R 0%nat
      [mkVec3 0%R 0%R 0%R] = Ok (pts, h')
    /\ Z.of_nat (length pts) = 3%Z.
Proof.
  apply (calculateWLCChain_length (NF := RealNumber) 3 50%R 300%R 0%R 1%R
           0%R 0%nat (mkVec3 0%R 0%R 0%R)).
  - lia.
  - reflexivity.
Defined.

Lemma calculateWLCChain_origin_witness :
  exists pts h',
    calculateWLCChain (NF := RealNumber) 0 50%R 300%R 0%R 1%R 1%R 0%nat
      [mkVec3 2%R 0%R 0%R] = Ok (pts, h')
    /\ pts !! 0%nat = Some (0%R, 0%R, 0%R).
Proof.
  apply (calculateWLCChain_origin (NF := RealNumber) 0 50%R 300%R 0%R 1%R
           1%R 0%nat (mkVec3 2%R 0%R 0%R)).
  reflexivity.
Defined.

Lemma calculateWLCChain_deterministic_witness :
  exists pts h1' h2' h1'',
    calculateWLCChain (NF := RealNumber) 3 50%R 300%R 0%R 1%R 1%R 0%nat
      [mkVec3 2%R 0%R 0%R] = Ok (pts, h1')
    /\ calculateWLCChain (NF := RealNumber) 3 50%R 300%R 0%R 1%R 1%R 1%nat
         [mkVec3 7%R 7%R 7%R; mkVec3 2%R 0%R 0%R] = Ok (pts, h2')
    /\ extends [mkVec3 2%R 0%R 0%R] h1'
    /\ extends [mkVec3 7%R 7%R 7%R; mkVec3 2%R 0%R 0%R] h2'
    /\ calculateWLCChain (NF := RealNumber) 3 50%R 300%R 0%R 1%R 1%R 0%nat
         h1' = Ok (pts, h1'').
Proof.
  apply (calculateWLCChain_deterministic (NF := RealNumber) 3 50%R 300%R
           0%R 1%R 1%R 0%nat 1%nat (mkVec3 2%R 0%R 0%R)).
  - reflexivity.
  - reflexivity.
Defined.

(** * The force term and the segments, for every reading of the numbers *)

Section StepClaims.
Context {F : Type} {NF : Number F}.

(** C1 (geometric force decay), amended: in every call, at every loop
    step [i] from 1 to [length - 1] the body, run from the state step
    [i - 1] left, returns and the call goes on from the state it leaves;
    in that state the [force] object holds [externalForce] multiplied [i]
    times in succession by the number [1 / bendingRigidity] (it is scaled
    in place and never reset), and [direction] holds the normalized
    direction plus that vector.  Each of the [i] products is one
    multiplication of the numbers at hand: the result is
    [externalForce * (1/b)^i] where multiplication is exact, and the
    rounded iterated product on binary64.  For [externalForce = (x, y, z)]
    the vector has the fields [x], [y] and [z] each multiplied [i] times
    by [1 / bendingRigidity]. *)
Theorem force_scaled_in_place (len : Z) (i : nat) (pl temp time b noise : F)
        (e : loc) (ext : Vec3 F) (h : Heap F) :
  h !! e = Some ext ->
  (1 <= i)%nat -> (Z.of_nat i < len)%Z ->
  exists sp hp dprev s h',
    chain_steps (i - 1) pl temp time b noise e h = Ok (sp, hp)
    /\ hp !! direction sp = Some dprev
    /\ loop_body time b (thermal pl temp noise) (Z.of_nat i) sp hp
       = Ok (s, h')
    /\ calculateWLCChain len pl temp time b noise e h
       = bind (for_loop (loop_body time b (thermal pl temp noise))
                 (Z.to_nat (len - 1) - i) (1 + Z.of_nat i)%Z s)
           (fun s' => ret (points s')) h'
    /\ h' !! force s
       = Some (Nat.iter i (fun v => vscale v (num_div lit1 b)) ext)
    /\ h' !! direction s
       = Some (vadd
                 (vnormalize
                    (vadd dprev
                       (fluctuation_fields time (thermal pl temp noise)
                          (Z.of_nat i))))
                 (Nat.iter i (fun v => vscale v (num_div lit1 b)) ext))
    /\ forall x y z : F,
         Nat.iter i (fun v => vscale v (num_div lit1 b)) (mkVec3 x y z)
         = mkVec3 (Nat.iter i (fun c => num_mul c (num_div lit1 b)) x)
                  (Nat.iter i (fun c => num_mul c (num_div lit1 b)) y)
                  (Nat.iter i (fun c => num_mul c (num_div lit1 b)) z).
Proof.
  intros He Hi Hlen. destruct i as [|k]; [lia|].
  replace (S k - 1)%nat with k by lia.
  destruct (chain_steps_spec k pl temp time b noise e ext h He)
    as (hp & Hrunp & Hdp & _ & _).
  destruct (chain_steps_spec (S k) pl temp time b noise e ext h He)
    as (h' & Hrun & Hd & Hf & _).
  eexists _, hp, _, _, h'.
  split; [exact Hrunp|]. split; [exact Hdp|].
  split; [|split; [|split; [|split]]].
  - rewrite <- Hrun, chain_steps_S, (bind_ok _ _ _ _ _ Hrunp).
    now replace (Z.of_nat (S k)) with (1 + Z.of_nat k)%Z by lia.
  - now apply calculateWLCChain_from_step.
  - cbn [force]. rewrite Hf. now rewrite pure_chain_force_iter.
  - cbn [direction]. rewrite Hd. f_equal.
    rewrite pure_chain_S. cbn [p_direction pure_step]. unfold pre_normalize.
    replace (Z.of_nat (S k)) with (1 + Z.of_nat k)%Z by lia.
    now rewrite pure_chain_force_iter.
  - intros x y z. apply iter_vscale_fields.
Qed.

(** C6 (non-unit segments), amended: in every call, for every index
    [1 <= i < length], [points[i]] is [points[i-1]] with the fields of
    [direction] added to its coordinates, one addition each, where
    [direction] has the value step [i] leaves in it: the normalized
    direction plus the force term, with no normalization after the force
    term.  So a segment is the post-force direction, up to the rounding
    of these additions; its length is 1 in some calls and not in
    others. *)
Theorem segment_adds_direction (len : Z) (i : nat)
        (pl temp time b noise : F) (e : loc) (ext : Vec3 F) (h : Heap F) :
  h !! e = Some ext ->
  (1 <= i)%nat -> (Z.of_nat i < len)%Z ->
  exists sp hp dprev s hs dir pts h' p q,
    chain_steps (i - 1) pl temp time b noise e h = Ok (sp, hp)
    /\ hp !! direction sp = Some dprev
    /\ chain_steps i pl temp time b noise e h = Ok (s, hs)
    /\ hs !! direction s = Some dir
    /\ dir = vadd
               (vnormalize
                  (vadd dprev
                     (fluctuation_fields time (thermal pl temp noise)
                        (Z.of_nat i))))
               (Nat.iter i (fun v => vscale v (num_div lit1 b)) ext)
    /\ calculateWLCChain len pl temp time b noise e h = Ok (pts, h')
    /\ pts !! (i - 1)%nat = Some p /\ pts !! i = Some q
    /\ q = point_add p dir.
Proof.
  intros He Hi Hlen. destruct i as [|k]; [lia|].
  replace (S k - 1)%nat with k by lia.
  destruct (chain_steps_spec k pl temp time b noise e ext h He)
    as (hp & Hrunp & Hdp & _ & _).
  destruct (chain_steps_spec (S k) pl temp time b noise e ext h He)
    as (hs & Hrun & Hd & _).
  destruct (calculateWLCChain_spec len pl temp time b noise e ext h He)
    as (h' & Hcall & _).
  destruct (pure_chain_segment (Z.to_nat (len - 1)) k pl temp time b noise
              ext ltac:(lia)) as (p & Hp & Hq).
  eexists _, hp, _, _, hs, _, _, h', p, _.
  split; [exact Hrunp|]. split; [exact Hdp|].
  split; [exact Hrun|]. split; [exact Hd|].
  split; [|split; [exact Hcall|split; [exact Hp|split; [exact Hq|]]]].
  - rewrite pure_chain_S. cbn [p_direction pure_step]. unfold pre_normalize.
    replace (Z.of_nat (S k)) with (1 + Z.of_nat k)%Z by lia.
    now rewrite pure_chain_force_iter.
  - reflexivity.
Qed.

End StepClaims.

Section StepWitnesses.
#[local] Existing Instance SampleNumber.

Lemma force_scaled_in_place_witness :
  exists sp hp dprev s h',
    chain_steps (2 - 1) 50%float 300%float 0.25%float 2%float 1%float
      0%nat [mkVec3 3%float 0%float 0%float]
    = Ok (sp, hp)
    /\ hp !! direction sp = Some dprev
    /\ loop_body 0.25%float 2%float (thermal 50%float 300%float 1%float)
         (Z.of_nat 2) sp hp = Ok (s, h')
    /\ calculateWLCChain 4 50%float 300%float 0.25%float 2%float 1%float
         0%nat [mkVec3 3%float 0%float 0%float]
       = bind (for_loop
                 (loop_body 0.25%float 2%float
                    (thermal 50%float 300%float 1%float))
                 (Z.to_nat (4 - 1) - 2) (1 + Z.of_nat 2)%Z s)
           (fun s' => ret (points s')) h'
    /\ h' !! force s
       = Some (Nat.iter 2 (fun v => vscale v (num_div lit1 2%float))
                 (mkVec3 3%float 0%float 0%float))
    /\ h' !! direction s
       = Some (vadd
                 (vnormalize
                    (vadd dprev
                       (fluctuation_fields 0.25%float
                          (thermal 50%float 300%float 1%float)
                          (Z.of_nat 2))))
                 (Nat.iter 2 (fun v => vscale v (num_div lit1 2%float))
                    (mkVec3 3%float 0%float 0%float)))
    /\ forall x y z : float,
         Nat.iter 2 (fun v => vscale v (num_div lit1 2%float)) (mkVec3 x y z)
         = mkVec3 (Nat.iter 2 (fun c => num_mul c (num_div lit1 2%float)) x)
                  (Nat.iter 2 (fun c => num_mul c (num_div lit1 2%float)) y)
                  (Nat.iter 2 (fun c => num_mul c (num_div lit1 2%float)) z).
Proof.
  apply (force_scaled_in_place 4 2
           50%float 300%float 0.25%float 2%float 1%float 0%nat
           (mkVec3 3%float 0%float 0%float)
           [mkVec3 3%float 0%float 0%float]).
  - reflexivity.
  - lia.
  - lia.
Defined.

Lemma segment_adds_direction_witness :
  exists sp hp dprev s hs dir pts h' p q,
    chain_steps (2 - 1) 50%float 300%float
      0.25%float 2%float 1%float 0%nat [mkVec3 3%float 4%float 0%float]
    = Ok (sp, hp)
    /\ hp !! direction sp = Some dprev
    /\ chain_steps 2 50%float 300%float 0.25%float 2%float 1%float 0%nat
         [mkVec3 3%float 4%float 0%float] = Ok (s, hs)
    /\ hs !! direction s = Some dir
    /\ dir = vadd
               (vnormalize
                  (vadd dprev
                     (fluctuation_fields 0.25%float
                        (thermal 50%float 300%float 1%float) (Z.of_nat 2))))
               (Nat.iter 2 (fun v => vscale v (num_div lit1 2%float))
                  (mkVec3 3%float 4%float 0%float))
    /\ calculateWLCChain 4 50%float 300%float 0.25%float 2%float 1%float
         0%nat [mkVec3 3%float 4%float 0%float] = Ok (pts, h')
    /\ pts !! (2 - 1)%nat = Some p /\ pts !! 2%nat = Some q
    /\ q = point_add p dir.
Proof.
  apply (segment_adds_direction 4 2
           50%float 300%float 0.25%float 2%float 1%float 0%nat
           (mkVec3 3%float 4%float 0%float)
           [mkVec3 3%float 4%float 0%float]).
  - reflexivity.
  - lia.
  - lia.
Defined.

End StepWitnesses.

(** * The animation state *)

Section AnimationFacts.
Context {F : Type} {NF : Number F}.

(** A frame returns, advances [timeRef.current] by the step and keeps the
    props. *)
Lemma DNAModel_frame_ok (w : World F) :
  valid_world w ->
  exists w',
    DNAModel_frame w = Ok w'
    /\ timeRef w' = num_add (timeRef w) lit_step
    /\ valid_world w'.
Proof.
  intros [v Hv]. unfold DNAModel_frame.
  destruct (calculateWLCChain_spec (prop_length (props w))
              (prop_persistenceLength (props w))
              (prop_temperature (props w))
              (num_add (timeRef w) lit_step)
              (prop_bendingRigidity (props w))
              (prop_noiseLevel (props w))
              (prop_externalForce (props w)) v (heap w) Hv)
    as (h' & Hrun & Hext).
  rewrite Hrun. eexists. split; [reflexivity|]. split; [reflexivity|].
  exists v. cbn [heap props]. now apply Hext.
Qed.

Lemma replace_force_ok (upd : Vec3 F -> Vec3 F) (w : World F) :
  valid_world w ->
  exists w',
    replace_force upd w = Ok w'
    /\ timeRef w' = timeRef w
    /\ valid_world w'.
Proof.
  intros [v Hv]. unfold replace_force.
  rewrite (bind_ok _ _ _ _ _ (load_ok _ _ _ Hv)). unfold alloc.
  eexists. split; [reflexivity|]. split; [reflexivity|].
  exists (upd v). cbn [heap props prop_externalForce].
  apply lookup_alloc_new.
Qed.

(** A slider edit returns and leaves [timeRef.current] as it was. *)
Lemma App_onChange_ok (e : Edit F) (w : World F) :
  valid_world w ->
  exists w',
    App_onChange e w = Ok w'
    /\ timeRef w' = timeRef w
    /\ valid_world w'.
Proof.
  intros Hw.
  destruct e; cbn [App_onChange];
    try (now apply replace_force_ok);
    (eexists; split; [reflexivity|]; split; [reflexivity|];
     destruct Hw as [x Hx]; exists x; exact Hx).
Qed.

(** After a history, the time is the initial one advanced once per
    frame. *)
Lemma run_time (evs : list (Event F)) :
  forall w : World F,
  valid_world w ->
  exists w',
    run evs w = Ok w'
    /\ timeRef w'
       = Nat.iter (frames evs) (fun t => num_add t lit_step) (timeRef w)
    /\ valid_world w'.
Proof.
  induction evs as [|ev rest IH]; intros w Hw.
  - exists w. repeat split; auto.
  - destruct ev as [|e].
    + destruct (DNAModel_frame_ok w Hw) as (w1 & Hrun1 & Ht1 & Hw1).
      destruct (IH w1 Hw1) as (w2 & Hrun2 & Ht2 & Hw2).
      exists w2. cbn [run handle frames]. rewrite Hrun1.
      split; [exact Hrun2|]. split; [|exact Hw2].
      rewrite Ht2, Ht1. now rewrite Nat.iter_succ_r.
    + destruct (App_onChange_ok e w Hw) as (w1 & Hrun1 & Ht1 & Hw1).
      destruct (IH w1 Hw1) as (w2 & Hrun2 & Ht2 & Hw2).
      exists w2. cbn [run handle frames]. rewrite Hrun1.
      split; [exact Hrun2|]. split; [|exact Hw2].
      now rewrite Ht2, Ht1.
Qed.

Lemma App_initial_valid : valid_world (F := F) App_initial.
Proof. now exists (mkVec3 lit0 lit0 lit0). Qed.

Lemma frames_app (evs1 evs2 : list (Event F)) :
  frames (evs1 ++ evs2) = (frames evs1 + frames evs2)%nat.
Proof.
  induction evs1 as [|[|e] rest IH]; simpl; auto.
Qed.

End AnimationFacts.

(** * Exact arithmetic: the literal scenario and the accumulated time *)

Section RealClaims.
#[local] Existing Instance RealNumber.
Local Open Scope R_scope.

Lemma vadd_zero_r (v : Vec3 R) : vadd v (mkVec3 0 0 0) = v.
Proof. destruct v. unfold vadd; cbn. f_equal; ring. Qed.

Lemma vscale_zero (r : R) : vscale (mkVec3 0 0 0) r = mkVec3 0 0 0.
Proof. unfold vscale; cbn. f_equal; ring. Qed.

Lemma R_truthy_nonzero (x : R) : x <> 0 -> R_truthy x = true.
Proof. intros Hx. unfold R_truthy. now destruct (Req_dec_T x 0). Qed.

(** With [noiseLevel = 0] the thermal scale and every fluctuation are
    zero. *)
Lemma thermal_noise_off (pl temp : R) : thermal pl temp 0 = 0.
Proof. unfold thermal; cbn. ring. Qed.

Lemma fluctuation_off (time : R) (i : Z) :
  fluctuation_fields time 0 i = mkVec3 0 0 0.
Proof. unfold fluctuation_fields; cbn. f_equal; ring. Qed.

(** ** The literal scenario on exact numbers *)

Lemma vnormalize_x_axis : vnormalize (mkVec3 1 0 0) = mkVec3 1 0 0.
Proof.
  unfold vnormalize, js_or, vlength; cbn.
  replace (1 * 1 + 0 * 0 + 0 * 0) with 1 by ring.
  rewrite sqrt_1, R_truthy_nonzero by lra.
  unfold vscale; cbn. f_equal; field.
Qed.

(** With no noise, no force and [bendingRigidity = 1] an iteration keeps
    the direction [(1, 0, 0)] and appends the last point moved by it. *)
Lemma pure_step_straight (time : R) (i : Z) (pts : list (Point R)) :
  pure_step time 1 0 i (mkPure pts (mkVec3 1 0 0) (mkVec3 0 0 0))
  = mkPure (pts ++ [point_add (List.last pts origin) (mkVec3 1 0 0)])
      (mkVec3 1 0 0) (mkVec3 0 0 0).
Proof.
  unfold pure_step, pre_normalize. cbn [p_direction p_force p_points].
  rewrite fluctuation_off, vadd_zero_r, vnormalize_x_axis, vscale_zero.
  now rewrite vadd_zero_r.
Qed.

Lemma literal_scenario_pure :
  p_points (pure_chain 2 50 300 0 1 0 (mkVec3 0 0 0))
  = [(0, 0, 0); (1, 0, 0); (2, 0, 0)].
Proof.
  unfold pure_chain. rewrite thermal_noise_off.
  simpl pure_steps. rewrite !pure_step_straight.
  cbn. repeat f_equal; ring.
Qed.

Lemma literal_scenario_real (e : loc) (h : Heap R) :
  h !! e = Some (mkVec3 0 0 0) ->
  exists h',
    calculateWLCChain 3 50 300 0 1 0 e h
    = Ok ([(0, 0, 0); (1, 0, 0); (2, 0, 0)], h').
Proof.
  intros He.
  destruct (calculateWLCChain_spec 3 50 300 0 1 0 e _ h He)
    as (h' & Hrun & _).
  exists h'. rewrite Hrun.
  change (Z.to_nat (3 - 1)) with 2%nat. now rewrite literal_scenario_pure.
Qed.

(** C6, as stated, fails: in the literal scenario (no noise, no force,
    [bendingRigidity = 1]) the call returns
    [(0,0,0), (1,0,0), (2,0,0)] and both segments have length 1, on
    exact numbers and on binary64. *)
Lemma non_unit_segments_counterexample :
  (exists h',
     calculateWLCChain 3 50 300 0 1 0 0%nat [mkVec3 0 0 0]
     = Ok ([(0, 0, 0); (1, 0, 0); (2, 0, 0)], h')
     /\ euclidean_length (point_sub (1, 0, 0) (0, 0, 0)) = 1
     /\ euclidean_length (point_sub (2, 0, 0) (1, 0, 0)) = 1)
  /\ (exists h',
        calculateWLCChain (NF := SampleNumber) 3 50%float 300%float 0%float
          1%float 0%float 0%nat [mkVec3 0%float 0%float 0%float]
        = Ok ([(0%float, 0%float, 0%float); (1%float, 0%float, 0%float);
               (2%float, 0%float, 0%float)], h')
        /\ segment_length (1%float, 0%float, 0%float)
             (0%float, 0%float, 0%float) = 1%float
        /\ segment_length (2%float, 0%float, 0%float)
             (1%float, 0%float, 0%float) = 1%float).
Proof.
  split.
  - destruct (literal_scenario_real 0%nat [mkVec3 0 0 0] eq_refl)
      as (h' & Hrun).
    exists h'. split; [exact Hrun|].
    unfold euclidean_length, point_sub; cbn.
    split.
    + replace ((1 - 0) * (1 - 0) + (0 - 0) * (0 - 0) + (0 - 0) * (0 - 0))
        with 1 by ring. apply sqrt_1.
    + replace ((2 - 1) * (2 - 1) + (0 - 0) * (0 - 0) + (0 - 0) * (0 - 0))
        with 1 by ring. apply sqrt_1.
  - eexists. split; [vm_compute; reflexivity|]. split; reflexivity.
Qed.

(** ** The accumulated time *)

Lemma iter_step (n : nat) :
  Nat.iter n (fun t : R => t + 1 / 100) 0 = INR n * (1 / 100).
Proof.
  induction n as [|n IH].
  - simpl. ring.
  - rewrite S_INR. simpl Nat.iter. rewrite IH. ring.
Qed.

(** C8 (time accumulation): from a fresh start, after any history of
    display refreshes and slider edits with [N] refreshes, the
    accumulated time is [N * 0.01]; a further edit leaves it as it is and
    a further refresh adds exactly [0.01]. *)
Theorem time_accumulation (evs : list (Event R)) :
  exists w,
    run evs App_initial = Ok w
    /\ timeRef w = INR (frames evs) * (1 / 100)
    /\ (forall e, exists w',
          run (evs ++ [Change e]) App_initial = Ok w'
          /\ timeRef w' = timeRef w)
    /\ (exists w',
          run (evs ++ [Frame]) App_initial = Ok w'
          /\ timeRef w' = timeRef w + 1 / 100).
Proof.
  destruct (run_time evs App_initial App_initial_valid)
    as (w & Hrun & Ht & _).
  exists w. split; [exact Hrun|].
  assert (Htw : timeRef w = INR (frames evs) * (1 / 100)).
  { rewrite Ht. apply iter_step. }
  split; [exact Htw|]. split.
  - intros e.
    destruct (run_time (evs ++ [Change e]) App_initial App_initial_valid)
      as (w' & Hrun' & Ht' & _).
    exists w'. split; [exact Hrun'|].
    rewrite Ht', Htw, frames_app. cbn [frames].
    rewrite Nat.add_0_r. apply iter_step.
  - destruct (run_time (evs ++ [Frame]) App_initial App_initial_valid)
      as (w' & Hrun' & Ht' & _).
    exists w'. split; [exact Hrun'|].
    rewrite Ht', Htw, frames_app. cbn [frames].
    change (timeRef App_initial) with 0.
    change (fun t : R => num_add t lit_step) with (fun t : R => t + 1 / 100).
    rewrite iter_step, plus_INR. simpl INR. ring.
Qed.

End RealClaims.

(** * The claims about the values the code computes, on binary64 *)

Section FloatClaims.
Variable host : Host.
Let NF : Number float := FloatNumber host.
#[local] Existing Instance NF.

(** ** Binary64 facts *)

Lemma SFcompare_refl_finite (s : bool) (m : positive) (e : Z) :
  SFcompare (S754_finite s m e) (S754_finite s m e) = Some Eq.
Proof.
  unfold SFcompare. rewrite Z.compare_refl.
  assert (H : Pos.compare_cont Eq m m = Eq) by apply Pos.compare_cont_refl.
  rewrite H. now destruct s.
Qed.

Lemma is_finite_spec (x : float) :
  PrimFloat.is_finite x = negb (sf_non_finite (Prim2SF x)).
Proof.
  unfold PrimFloat.is_finite, is_nan, is_infinity.
  rewrite !FloatAxioms.eqb_spec, FloatAxioms.abs_spec.
  change (Prim2SF infinity) with (S754_infinity false).
  destruct (Prim2SF x) as [s|s| |s m e];
    try (destruct s; reflexivity); try reflexivity.
  unfold SFeqb. now rewrite SFcompare_refl_finite.
Qed.

Lemma non_finite_spec (x : float) :
  non_finite x <-> sf_non_finite (Prim2SF x) = true.
Proof.
  unfold non_finite. rewrite is_finite_spec.
  destruct (sf_non_finite (Prim2SF x)); simpl; split; congruence.
Qed.

Lemma is_zero_spec (x : float) :
  PrimFloat.is_zero x = true -> exists s, Prim2SF x = S754_zero s.
Proof.
  unfold is_zero. rewrite FloatAxioms.eqb_spec.
  change (Prim2SF zero) with (S754_zero false).
  destruct (Prim2SF x) as [s|s| |s m e];
    try (destruct s; discriminate); try discriminate.
  now exists s.
Qed.

(** A product with a non-finite factor is non-finite (an infinity times
    zero is [NaN]). *)
Lemma mul_non_finite_l (x y : float) :
  non_finite x -> non_finite (x * y)%float.
Proof.
  rewrite !non_finite_spec, FloatAxioms.mul_spec.
  destruct (Prim2SF x), (Prim2SF y); simpl; intros;
    try discriminate; reflexivity.
Qed.

Lemma mul_non_finite_r (x y : float) :
  non_finite y -> non_finite (x * y)%float.
Proof.
  rewrite !non_finite_spec, FloatAxioms.mul_spec.
  destruct (Prim2SF x), (Prim2SF y); simpl; intros;
    try discriminate; reflexivity.
Qed.

(** A sum with a non-finite term is non-finite (opposite infinities add
    to [NaN]). *)
Lemma add_non_finite_r (x y : float) :
  non_finite y -> non_finite (x + y)%float.
Proof.
  rewrite !non_finite_spec, FloatAxioms.add_spec.
  destruct (Prim2SF x) as [[]|[]| |], (Prim2SF y) as [[]|[]| |]; simpl;
    intros; try discriminate; reflexivity.
Qed.

(** [1 / 0] and [1 / -0] are the infinities. *)
Lemma one_div_zero (b : float) :
  PrimFloat.is_zero b = true -> non_finite (1 / b)%float.
Proof.
  intros [s Hs]%is_zero_spec. apply non_finite_spec.
  rewrite FloatAxioms.div_spec, Hs.
  change (Prim2SF 1) with (S754_finite false 4503599627370496 (-52)).
  reflexivity.
Qed.

(** ** Rounding: a product with 0.5 does not overflow *)

Local Open Scope Z_scope.

Lemma digits2_pos_bounds (p : positive) :
  2 ^ (Zpos (digits2_pos p) - 1) <= Zpos p < 2 ^ Zpos (digits2_pos p).
Proof.
  induction p as [p IH|p IH|]; cbn [digits2_pos].
  - rewrite Pos2Z.inj_succ.
    replace (Z.succ (Zpos (digits2_pos p)) - 1) with (Z.succ (Zpos (digits2_pos p) - 1)) by lia.
    rewrite !Z.pow_succ_r by lia. lia.
  - rewrite Pos2Z.inj_succ.
    replace (Z.succ (Zpos (digits2_pos p)) - 1) with (Z.succ (Zpos (digits2_pos p) - 1)) by lia.
    rewrite !Z.pow_succ_r by lia. lia.
  - simpl. lia.
Qed.

Lemma Zdigits2_le (m k : Z) : 0 <= m -> 0 <= k -> m < 2 ^ k -> Zdigits2 m <= k.
Proof.
  intros Hm Hk Hlt. destruct m as [|p|p]; simpl; [lia| |lia].
  destruct (digits2_pos_bounds p) as [Hlo _].
  destruct (Z_le_gt_dec (Zpos (digits2_pos p)) k) as [|Hgt]; [assumption|].
  assert (2 ^ k <= 2 ^ (Zpos (digits2_pos p) - 1)) by (apply Z.pow_le_mono_r; lia).
  lia.
Qed.

Lemma Zdigits2_gt (m k : Z) : 0 <= k -> 2 ^ k <= m -> k < Zdigits2 m.
Proof.
  intros Hk Hle.
  assert (0 < 2 ^ k) by (apply Z.pow_pos_nonneg; lia).
  destruct m as [|p|p]; simpl; [lia| |lia].
  destruct (digits2_pos_bounds p) as [_ Hhi].
  destruct (Z_lt_le_dec k (Zpos (digits2_pos p))) as [|Hge]; [assumption|].
  assert (2 ^ Zpos (digits2_pos p) <= 2 ^ k) by (apply Z.pow_le_mono_r; lia).
  lia.
Qed.

Lemma Zdigits2_lt_pow (m : Z) : 0 <= m -> m < 2 ^ Zdigits2 m.
Proof.
  intros Hm. destruct m as [|p|p]; simpl; [lia| |lia].
  apply digits2_pos_bounds.
Qed.

Lemma iter_pos_nat {A} (f : A -> A) (p : positive) (x : A) :
  @SpecFloat.iter_pos A f p x = Nat.iter (Pos.to_nat p) f x.
Proof.
  revert x. induction p as [p IH|p IH|]; intros x; cbn [SpecFloat.iter_pos].
  - rewrite !IH. rewrite Pos2Nat.inj_xI.
    replace (S (2 * Pos.to_nat p))%nat with (Pos.to_nat p + (Pos.to_nat p + 1))%nat by lia.
    rewrite !Nat.iter_add. reflexivity.
  - rewrite !IH. rewrite Pos2Nat.inj_xO.
    replace (2 * Pos.to_nat p)%nat with (Pos.to_nat p + Pos.to_nat p)%nat by lia.
    rewrite Nat.iter_add. reflexivity.
  - reflexivity.
Qed.

Lemma shr_1_halves (r : shr_record) :
  0 <= shr_m r -> 0 <= shr_m (shr_1 r) /\ 2 * shr_m (shr_1 r) <= shr_m r.
Proof.
  destruct r as [m rb sb]. cbn [shr_m].
  destruct m as [|[p|p|]|p]; cbn; lia.
Qed.

Lemma shr_iter_bound (n : nat) (r : shr_record) :
  0 <= shr_m r ->
  0 <= shr_m (Nat.iter n shr_1 r)
  /\ shr_m (Nat.iter n shr_1 r) * 2 ^ Z.of_nat n <= shr_m r.
Proof.
  intros Hr. induction n as [|n [IH0 IH]].
  - simpl. lia.
  - change (Nat.iter (S n) shr_1 r) with (shr_1 (Nat.iter n shr_1 r)).
    destruct (shr_1_halves (Nat.iter n shr_1 r) IH0) as [H0 H2].
    split; [exact H0|].
    rewrite Nat2Z.inj_succ, Z.pow_succ_r by lia.
    assert (Hp : 0 < 2 ^ Z.of_nat n) by (apply Z.pow_pos_nonneg; lia).
    set (a := shr_m (shr_1 (Nat.iter n shr_1 r))) in *.
    set (c := shr_m (Nat.iter n shr_1 r)) in *.
    set (w := 2 ^ Z.of_nat n) in *.
    nia.
Qed.

(** shr: nonneg, exponent, and value bound *)
Lemma shr_bound (r : shr_record) (e n : Z) :
  0 <= shr_m r -> 0 <= n ->
  let '(r', e') := shr r e n in
  e' = e + n /\ 0 <= shr_m r' /\ shr_m r' * 2 ^ n <= shr_m r.
Proof.
  intros Hr Hn. unfold shr. destruct n as [|p|p]; [simpl; lia| |lia].
  rewrite iter_pos_nat.
  destruct (shr_iter_bound (Pos.to_nat p) r Hr) as [H0 H1].
  rewrite positive_nat_Z in H1. auto.
Qed.

Lemma shr_nonneg (r : shr_record) (e n : Z) :
  0 <= shr_m r -> 0 <= shr_m (fst (shr r e n)).
Proof.
  intros Hr. unfold shr. destruct n as [|p|p]; simpl; try assumption.
  rewrite iter_pos_nat. now apply shr_iter_bound.
Qed.

Lemma round_nearest_even_bound (q : Z) (l : location) :
  0 <= q -> 0 <= round_nearest_even q l <= q + 1.
Proof.
  intros Hq. destruct l as [|[]]; simpl; try lia.
  destruct (Z.even q); lia.
Qed.

Lemma shr_m_record_of_loc m l : shr_m (shr_record_of_loc m l) = m.
Proof. destruct l as [|[]]; reflexivity. Qed.

Lemma binary_round_aux_finite (sx : bool) (m e : Z) (l : location) :
  0 <= m ->
  e <= fexp prec emax (Zdigits2 m + e) ->
  Zdigits2 m + e <= 1023 ->
  sf_non_finite (binary_round_aux prec emax sx m e l) = false.
Proof.
  intros Hm He Hd.
  unfold binary_round_aux, shr_fexp.
  set (E1 := fexp prec emax (Zdigits2 m + e)) in *.
  assert (HE1 : E1 <= 970 /\ Zdigits2 m + e - 53 <= E1).
  { unfold E1, fexp, SpecFloat.emin, prec, emax. lia. }
  pose proof (shr_bound (shr_record_of_loc m l) e (E1 - e)) as Hs.
  rewrite shr_m_record_of_loc in Hs. specialize (Hs Hm ltac:(lia)).
  destruct (shr (shr_record_of_loc m l) e (E1 - e)) as [r1 e1].
  destruct Hs as (-> & Hq0 & Hq).
  replace (e + (E1 - e)) with E1 by lia.
  set (q := shr_m r1) in *.
  assert (Hq53 : q < 2 ^ 53).
  { destruct (Z_lt_le_dec q (2 ^ 53)) as [|Hge]; [assumption|exfalso].
    pose proof (Zdigits2_lt_pow m Hm) as Hlt.
    assert (0 < 2 ^ (E1 - e)) by (apply Z.pow_pos_nonneg; lia).
    assert (2 ^ Zdigits2 m <= 2 ^ (53 + (E1 - e))) by (apply Z.pow_le_mono_r; lia).
    rewrite Z.pow_add_r in * by lia. nia. }
  pose proof (round_nearest_even_bound q (loc_of_shr_record r1) Hq0) as Hm1.
  set (m1 := round_nearest_even q (loc_of_shr_record r1)) in *.
  assert (Hd1 : Zdigits2 m1 <= 54).
  { apply Zdigits2_le; lia. }
  pose proof (shr_nonneg (shr_record_of_loc m1 loc_Exact) E1
                (fexp prec emax (Zdigits2 m1 + E1) - E1)) as Hnn.
  specialize (Hnn ltac:(cbn [shr_record_of_loc shr_m]; lia)).
  assert (He2 : snd (shr (shr_record_of_loc m1 loc_Exact) E1
                (fexp prec emax (Zdigits2 m1 + E1) - E1)) <= 971).
  { unfold shr.
    assert (Hf : fexp prec emax (Zdigits2 m1 + E1) <= 971)
      by (unfold fexp, SpecFloat.emin, prec, emax; lia).
    destruct (fexp prec emax (Zdigits2 m1 + E1) - E1) as [|p|p] eqn:Hn;
      cbn [snd]; lia. }
  destruct (shr (shr_record_of_loc m1 loc_Exact) E1
                (fexp prec emax (Zdigits2 m1 + E1) - E1)) as [r2 e2].
  cbn [fst snd] in *.
  destruct (shr_m r2) as [|p|p]; [reflexivity| |lia].
  replace (e2 <=? emax - prec) with true; [reflexivity|].
  symmetry. apply Z.leb_le. unfold emax, prec. lia.
Qed.

Lemma bounded_spec (mx : positive) (ex : Z) :
  bounded prec emax mx ex = true ->
  Zpos (digits2_pos mx) <= 53 /\ ex <= 971.
Proof.
  unfold bounded, canonical_mantissa, fexp, SpecFloat.emin, prec, emax.
  intros [H1 H2]%andb_prop. apply Z.eqb_eq in H1. apply Z.leb_le in H2. lia.
Qed.

Lemma SFmul_half_finite (sx : bool) (mx : positive) (ex : Z) :
  bounded prec emax mx ex = true ->
  sf_non_finite (SF64mul (S754_finite sx mx ex) (Prim2SF 0.5)) = false.
Proof.
  intros [Hdx Hex]%bounded_spec.
  change (Prim2SF 0.5) with (S754_finite false 4503599627370496 (-53)).
  unfold SF64mul, SFmul.
  destruct (digits2_pos_bounds mx) as [Hlo Hhi].
  assert (Hprod : Zpos (mx * 4503599627370496) = Zpos mx * 2 ^ 52) by (rewrite Pos2Z.inj_mul; reflexivity).
  assert (H52 : 0 < 2 ^ 52) by lia.
  apply binary_round_aux_finite.
  - lia.
  - assert (52 < Zdigits2 (Zpos (mx * 4503599627370496))).
    { apply Zdigits2_gt; [lia|]. rewrite Hprod. nia. }
    unfold fexp, SpecFloat.emin, prec, emax. lia.
  - assert (Zdigits2 (Zpos (mx * 4503599627370496)) <= Zpos (digits2_pos mx) + 52).
    { apply Zdigits2_le; [lia|lia|]. rewrite Hprod, Z.pow_add_r by lia. nia. }
    lia.
Qed.

Local Close Scope Z_scope.

Lemma finite_spec (x : float) :
  finite x <-> sf_non_finite (Prim2SF x) = false.
Proof.
  unfold finite. rewrite is_finite_spec.
  destruct (sf_non_finite (Prim2SF x)); simpl; split; congruence.
Qed.

(** Half of a finite number is finite. *)
Lemma mul_half_finite (x : float) : finite x -> finite (x * 0.5)%float.
Proof.
  rewrite !finite_spec, FloatAxioms.mul_spec.
  pose proof (Prim2SF_valid x) as Hv.
  destruct (Prim2SF x) as [s|s| |s m e] eqn:Hx; try discriminate.
  - intros _. reflexivity.
  - intros _. now apply SFmul_half_finite.
Qed.

Lemma is_zero_intro (x : float) (s : bool) :
  Prim2SF x = S754_zero s -> PrimFloat.is_zero x = true.
Proof.
  intros Hx. unfold is_zero. rewrite FloatAxioms.eqb_spec, Hx.
  reflexivity.
Qed.

(** A finite number times a zero is a zero. *)
Lemma mul_zero_r (x z : float) :
  finite x -> PrimFloat.is_zero z = true ->
  PrimFloat.is_zero (x * z)%float = true.
Proof.
  intros Hx%finite_spec [s Hz]%is_zero_spec.
  destruct (Prim2SF x) as [sx|sx| |sx m e] eqn:Ex; try discriminate.
  - apply is_zero_intro with (xorb sx s).
    now rewrite FloatAxioms.mul_spec, Ex, Hz.
  - apply is_zero_intro with (xorb sx s).
    now rewrite FloatAxioms.mul_spec, Ex, Hz.
Qed.

(** Adding a zero of either sign to 1 or to 0 changes nothing. *)
Lemma one_add_zero (z : float) :
  PrimFloat.is_zero z = true -> (1 + z)%float = 1%float.
Proof.
  intros [s Hz]%is_zero_spec. apply Prim2SF_inj.
  rewrite FloatAxioms.add_spec, Hz.
  change (Prim2SF 1) with (S754_finite false 4503599627370496 (-52)).
  reflexivity.
Qed.

Lemma zero_add_zero (z : float) :
  PrimFloat.is_zero z = true -> (0 + z)%float = 0%float.
Proof.
  intros [s Hz]%is_zero_spec. apply Prim2SF_inj.
  rewrite FloatAxioms.add_spec, Hz.
  change (Prim2SF 0) with (S754_zero false).
  now destruct s.
Qed.

(** ** The chain with [bendingRigidity = 0] *)

Lemma vscale_non_finite (v : Vec3 float) (r : float) :
  non_finite r -> vec_non_finite (vscale v r).
Proof.
  intros Hr. unfold vec_non_finite, vscale; cbn.
  repeat split; now apply mul_non_finite_r.
Qed.

Lemma vadd_non_finite (u v : Vec3 float) :
  vec_non_finite v -> vec_non_finite (vadd u v).
Proof.
  intros (Hx & Hy & Hz). unfold vec_non_finite, vadd; cbn.
  repeat split; now apply add_non_finite_r.
Qed.

Lemma point_add_non_finite (p : Point float) (d : Vec3 float) :
  vec_non_finite d -> point_non_finite (point_add p d).
Proof.
  intros (Hx & Hy & Hz). destruct p as [[p0 p1] p2]. cbn.
  repeat split; now apply add_non_finite_r.
Qed.

(** After an iteration with [bendingRigidity = 0] every field of
    [direction] is non-finite. *)
Lemma pure_step_direction_non_finite (time b th : float) (i : Z)
      (s : Pure float) :
  PrimFloat.is_zero b = true ->
  vec_non_finite (p_direction (pure_step time b th i s)).
Proof.
  intros Hb. cbn [p_direction pure_step].
  apply vadd_non_finite, vscale_non_finite. now apply one_div_zero.
Qed.

(** C7 (degeneracy tolerance): with [bendingRigidity = 0] (of either
    sign), any other numbers and an integer [length >= 1], on any host,
    the call returns a sequence of [length] points, and every coordinate
    of every point from index 1 on is [NaN] or an infinity.  For any
    numeric arguments at all the call returns: it raises no error. *)
Theorem degeneracy_tolerance (len : Z) (pl temp time b noise : float)
        (e : loc) (ext : Vec3 float) (h : Heap float) :
  PrimFloat.is_zero b = true ->
  (1 <= len)%Z ->
  h !! e = Some ext ->
  exists pts h',
    calculateWLCChain len pl temp time b noise e h = Ok (pts, h')
    /\ Z.of_nat (length pts) = len
    /\ (forall k p, (1 <= k)%nat -> pts !! k = Some p -> point_non_finite p)
    /\ (forall (len' : Z) (pl' temp' time' b' noise' : float),
          exists r,
            calculateWLCChain len' pl' temp' time' b' noise' e h = Ok r).
Proof.
  intros Hb Hlen He.
  destruct (calculateWLCChain_spec len pl temp time b noise e ext h He)
    as (h' & Hrun & _).
  eexists _, h'. split; [exact Hrun|].
  assert (Hsize :
    length (p_points (pure_chain (Z.to_nat (len - 1)) pl temp time b
                        noise ext)) = Z.to_nat len).
  { unfold pure_chain. rewrite pure_steps_length. simpl. lia. }
  split; [lia|]. split.
  - intros k p Hk Hp. destruct k as [|k]; [lia|].
    pose proof (lookup_lt_Some _ _ _ Hp) as Hlt.
    destruct (pure_chain_segment (Z.to_nat (len - 1)) k pl temp time b
                noise ext ltac:(lia)) as (q & _ & Hq).
    rewrite Hq in Hp. injection Hp as <-.
    apply point_add_non_finite. rewrite pure_chain_S.
    now apply pure_step_direction_non_finite.
  - intros len' pl' temp' time' b' noise'.
    destruct (calculateWLCChain_spec len' pl' temp' time' b' noise' e ext
                h He) as (h'' & Hrun' & _).
    eexists. exact Hrun'.
Qed.

(** ** The thermal scale outside the valid domain *)

(** A finite number that is not zero, divided by a zero, is an infinity. *)
Lemma div_zero_infinity (x y : float) :
  finite x -> PrimFloat.is_zero x = false -> PrimFloat.is_zero y = true ->
  exists s, Prim2SF (x / y)%float = S754_infinity s.
Proof.
  intros Hx%finite_spec Hnz [sy Hy]%is_zero_spec.
  rewrite FloatAxioms.div_spec, Hy.
  destruct (Prim2SF x) as [sx|sx| |sx m e] eqn:Ex; try discriminate.
  - rewrite (is_zero_intro x sx Ex) in Hnz. discriminate.
  - now exists (xorb sx sy).
Qed.

(** With [persistenceLength = 0], a positive finite [temperature] and
    [noiseLevel = 0] the ratio is an infinity, its power [+Infinity] and
    the thermal scale [NaN], on every host. *)
Lemma thermal_infinite_ratio (pl temp noise : float) :
  finite temp -> PrimFloat.is_zero temp = false ->
  PrimFloat.is_zero pl = true -> PrimFloat.is_zero noise = true ->
  Prim2SF (thermal pl temp noise) = S754_nan.
Proof.
  intros Ht Hnz Hpl [sn Hn]%is_zero_spec.
  destruct (div_zero_infinity temp pl Ht Hnz Hpl) as [s Hinf].
  unfold thermal; cbn [num_pow_half num_mul num_div NF FloatNumber].
  assert (Hpow : js_pow_half host (temp / pl) = infinity).
  { unfold js_pow_half, is_nan, is_infinity.
    rewrite !FloatAxioms.eqb_spec, FloatAxioms.abs_spec, Hinf.
    change (Prim2SF infinity) with (S754_infinity false).
    now destruct s. }
  rewrite Hpow, FloatAxioms.mul_spec, Hn.
  reflexivity.
Qed.

(** ** The literal scenario on binary64 *)

(** [(300 / 50) ** 0.5 * 0] is a zero when the host's power is finite. *)
Lemma thermal_literal :
  finite (host_pow_half host 6) ->
  PrimFloat.is_zero (thermal 50%float 300%float 0%float) = true.
Proof.
  intros Hp.
  change (thermal 50%float 300%float 0%float)
    with (host_pow_half host 6 * 0)%float.
  now apply mul_zero_r.
Qed.

(** A fluctuation scaled by a zero leaves [(1, 0, 0)] as it is. *)
Lemma vadd_fluctuation_off (th s c : float) :
  PrimFloat.is_zero th = true -> finite s -> finite c ->
  vadd (mkVec3 1%float 0%float 0%float)
       (mkVec3 ((s * 0.5) * th) ((c * 0.5) * th) ((0 * 0.5) * th))%float
  = mkVec3 1%float 0%float 0%float.
Proof.
  intros Hth Hs Hc. unfold vadd; cbn.
  rewrite one_add_zero by now apply mul_zero_r; [apply mul_half_finite|].
  rewrite zero_add_zero by now apply mul_zero_r; [apply mul_half_finite|].
  rewrite zero_add_zero by now apply mul_zero_r.
  reflexivity.
Qed.

Lemma pure_step_straight_float (th s c : float) (i : Z)
      (pts : list (Point float)) :
  PrimFloat.is_zero th = true -> finite s -> finite c ->
  fluctuation_fields 0%float th i
  = (mkVec3 ((s * 0.5) * th) ((c * 0.5) * th) ((0 * 0.5) * th))%float ->
  pure_step 0%float 1%float th i
    (mkPure pts (mkVec3 1%float 0%float 0%float)
       (mkVec3 0%float 0%float 0%float))
  = mkPure (pts ++ [point_add (List.last pts origin)
                      (mkVec3 1%float 0%float 0%float)])
      (mkVec3 1%float 0%float 0%float) (mkVec3 0%float 0%float 0%float).
Proof.
  intros Hth Hs Hc Hfl.
  unfold pure_step, pre_normalize. cbn [p_direction p_force p_points].
  rewrite Hfl, vadd_fluctuation_off by assumption.
  reflexivity.
Qed.

Lemma literal_scenario_float (e : loc) (h : Heap float) :
  finite (host_pow_half host 6) ->
  finite (host_sin host 1) -> finite (host_cos host 1) ->
  finite (host_sin host 2) -> finite (host_cos host 2) ->
  h !! e = Some (mkVec3 0%float 0%float 0%float) ->
  exists h',
    calculateWLCChain 3 50%float 300%float 0%float 1%float 0%float e h
    = Ok ([(0%float, 0%float, 0%float); (1%float, 0%float, 0%float);
           (2%float, 0%float, 0%float)], h').
Proof.
  intros Hp Hs1 Hc1 Hs2 Hc2 He.
  destruct (calculateWLCChain_spec 3 50%float 300%float 0%float 1%float
              0%float e _ h He) as (h' & Hrun & _).
  exists h'. rewrite Hrun. do 2 f_equal.
  change (Z.to_nat (3 - 1)) with 2%nat. unfold pure_chain.
  pose proof (thermal_literal Hp) as Hth.
  set (th := thermal 50%float 300%float 0%float) in *.
  simpl pure_steps.
  rewrite (pure_step_straight_float th (host_sin host 1) (host_cos host 1))
    by (assumption || reflexivity).
  rewrite (pure_step_straight_float th (host_sin host 2) (host_cos host 2))
    by (assumption || reflexivity).
  reflexivity.
Qed.
(** ** Rounding: a sum is [-0] only when both terms are *)

Local Open Scope Z_scope.

Lemma shr_1_lower (r : shr_record) :
  0 <= shr_m r -> shr_m r <= 2 * shr_m (shr_1 r) + 1.
Proof.
  destruct r as [m rb sb]. cbn [shr_m].
  destruct m as [|[p|p|]|p]; cbn; lia.
Qed.

Lemma shr_iter_lower (n : nat) (r : shr_record) :
  0 <= shr_m r ->
  shr_m r < (shr_m (Nat.iter n shr_1 r) + 1) * 2 ^ Z.of_nat n.
Proof.
  intros Hr. induction n as [|n IH].
  - simpl. lia.
  - change (Nat.iter (S n) shr_1 r) with (shr_1 (Nat.iter n shr_1 r)).
    destruct (shr_iter_bound n r Hr) as [H0 _].
    pose proof (shr_1_lower (Nat.iter n shr_1 r) H0) as H1.
    rewrite Nat2Z.inj_succ, Z.pow_succ_r by lia.
    assert (Hp : 0 < 2 ^ Z.of_nat n) by (apply Z.pow_pos_nonneg; lia).
    set (a := shr_m (shr_1 (Nat.iter n shr_1 r))) in *.
    set (c := shr_m (Nat.iter n shr_1 r)) in *.
    set (w := 2 ^ Z.of_nat n) in *.
    nia.
Qed.

Lemma Zdigits2_ge_pow (m : Z) : 0 < m -> 2 ^ (Zdigits2 m - 1) <= m.
Proof.
  intros Hm. destruct m as [|p|p]; simpl; [lia| |lia].
  apply digits2_pos_bounds.
Qed.

(** A positive mantissa stays positive through the shift to the
    representable exponent, when its exponent is not below the least
    one. *)
Lemma shr_fexp_pos (m e : Z) (l : location) :
  0 < m -> SpecFloat.emin prec emax <= e ->
  0 < shr_m (fst (shr_fexp prec emax m e l))
  /\ SpecFloat.emin prec emax <= snd (shr_fexp prec emax m e l).
Proof.
  intros Hm He. unfold shr_fexp, shr.
  set (n := fexp prec emax (Zdigits2 m + e) - e).
  assert (Hn : n <= 0 \/ n = Zdigits2 m - 53).
  { unfold n, fexp, SpecFloat.emin, prec, emax in *. lia. }
  destruct n as [|p|p] eqn:En; cbn [fst snd];
    rewrite ?shr_m_record_of_loc; try (split; lia).
  destruct Hn as [Hn|Hn]; [lia|].
  rewrite iter_pos_nat. split; [|lia].
  pose proof (shr_iter_lower (Pos.to_nat p) (shr_record_of_loc m l)) as Hlo.
  rewrite shr_m_record_of_loc, positive_nat_Z in Hlo.
  specialize (Hlo ltac:(lia)).
  pose proof (Zdigits2_ge_pow m Hm) as Hd.
  replace (Zdigits2 m - 1) with (52 + Z.pos p) in Hd by lia.
  rewrite Z.pow_add_r in Hd by lia.
  assert (Hp : 0 < 2 ^ Z.pos p) by (apply Z.pow_pos_nonneg; lia).
  set (q := shr_m (Nat.iter (Pos.to_nat p) shr_1 (shr_record_of_loc m l)))
    in *.
  assert (H52 : 0 < 2 ^ 52) by lia.
  nia.
Qed.

Lemma round_nearest_even_ge (q : Z) (l : location) :
  q <= round_nearest_even q l.
Proof.
  destruct l as [|[]]; simpl; try lia.
  destruct (Z.even q); lia.
Qed.

(** Rounding does not take a nonzero number of exponent at least the
    least one to zero. *)
Lemma binary_round_aux_not_zero (sx : bool) (m e : Z) (l : location)
      (s : bool) :
  0 < m -> SpecFloat.emin prec emax <= e ->
  binary_round_aux prec emax sx m e l <> S754_zero s.
Proof.
  intros Hm He. unfold binary_round_aux.
  destruct (shr_fexp_pos m e l Hm He) as [Hq He1].
  destruct (shr_fexp prec emax m e l) as [r1 e1]. cbn [fst snd] in *.
  pose proof (round_nearest_even_ge (shr_m r1) (loc_of_shr_record r1)) as Hr.
  set (m1 := round_nearest_even (shr_m r1) (loc_of_shr_record r1)) in *.
  destruct (shr_fexp_pos m1 e1 loc_Exact ltac:(lia) He1) as [Hq2 _].
  destruct (shr_fexp prec emax m1 e1 loc_Exact) as [r2 e2].
  cbn [fst snd] in *.
  destruct (shr_m r2) as [|p|p]; [lia| |lia].
  destruct (e2 <=? emax - prec); discriminate.
Qed.

Lemma binary_round_not_zero (sx : bool) (m : positive) (e : Z) (s : bool) :
  SpecFloat.emin prec emax <= e ->
  binary_round prec emax sx m e <> S754_zero s.
Proof.
  intros He. unfold binary_round, shl_align.
  set (E := fexp prec emax (Z.pos (digits2_pos m) + e)).
  assert (HE : SpecFloat.emin prec emax <= E) by (unfold E, fexp; lia).
  destruct (E - e) as [|p|p]; apply binary_round_aux_not_zero; lia.
Qed.

Lemma bounded_emin (m : positive) (e : Z) :
  bounded prec emax m e = true -> SpecFloat.emin prec emax <= e.
Proof.
  unfold bounded, canonical_mantissa.
  intros [H1 _]%andb_prop. apply Z.eqb_eq in H1.
  unfold fexp in H1. lia.
Qed.

Lemma SFadd_neg_zero (x y : spec_float) :
  valid_binary x = true -> valid_binary y = true ->
  SF64add x y = S754_zero true ->
  x = S754_zero true /\ y = S754_zero true.
Proof.
  intros Hx Hy. unfold SF64add, SFadd.
  destruct x as [[]|[]| |sx mx ex], y as [[]|[]| |sy my ey];
    try discriminate; try (intros H; now split).
  unfold valid_binary in Hx, Hy. cbn [SpecFloat.valid_binary] in Hx, Hy.
  apply bounded_emin in Hx, Hy.
  set (ez := Z.min ex ey).
  assert (Hez : SpecFloat.emin prec emax <= ez) by (unfold ez; lia).
  unfold binary_normalize.
  destruct (cond_Zopp sx (Z.pos (fst (shl_align mx ex ez)))
            + cond_Zopp sy (Z.pos (fst (shl_align my ey ez)))) as [|p|p].
  - discriminate.
  - intros H. now apply binary_round_not_zero in H.
  - intros H. now apply binary_round_not_zero in H.
Qed.

Local Close Scope Z_scope.

Lemma add_not_neg_zero (x y : float) :
  ~ neg_zero x -> ~ neg_zero (x + y)%float.
Proof.
  unfold neg_zero. intros Hx H. apply Hx.
  rewrite FloatAxioms.add_spec in H.
  now apply SFadd_neg_zero in H; [|apply Prim2SF_valid|apply Prim2SF_valid].
Qed.

(** ** Numbers equal up to the sign of a zero *)

Lemma num_eq_refl (x : float) : num_eq x x.
Proof. now left. Qed.

Lemma num_eq_intro (x y : float) :
  Prim2SF x = Prim2SF y
  \/ (exists s s', Prim2SF x = S754_zero s /\ Prim2SF y = S754_zero s') ->
  num_eq x y.
Proof.
  intros [H|(s & s' & Hx & Hy)].
  - left. now apply Prim2SF_inj.
  - right. split; eapply is_zero_intro; eauto.
Qed.

Ltac sf_cases :=
  solve [ left; reflexivity
        | right; do 2 eexists; split; reflexivity ].

Lemma add_num_eq (x x' y y' : float) :
  num_eq x x' -> num_eq y y' -> num_eq (x + y)%float (x' + y')%float.
Proof.
  intros [->|[[s Hx]%is_zero_spec [s' Hx']%is_zero_spec]]
         [->|[[t Hy]%is_zero_spec [t' Hy']%is_zero_spec]];
    [now left| | |];
    apply num_eq_intro; rewrite !FloatAxioms.add_spec;
    rewrite ?Hx, ?Hx', ?Hy, ?Hy'.
  - destruct (Prim2SF x') as [[]|[]| |], t, t'; sf_cases.
  - destruct (Prim2SF y') as [[]|[]| |], s, s'; sf_cases.
  - destruct s, s', t, t'; sf_cases.
Qed.

Lemma mul_num_eq (x x' y y' : float) :
  num_eq x x' -> num_eq y y' -> num_eq (x * y)%float (x' * y')%float.
Proof.
  intros [->|[[s Hx]%is_zero_spec [s' Hx']%is_zero_spec]]
         [->|[[t Hy]%is_zero_spec [t' Hy']%is_zero_spec]];
    [now left| | |];
    apply num_eq_intro; rewrite !FloatAxioms.mul_spec;
    rewrite ?Hx, ?Hx', ?Hy, ?Hy'.
  - destruct (Prim2SF x') as [[]|[]| |[]]; sf_cases.
  - destruct (Prim2SF y') as [[]|[]| |[]]; sf_cases.
  - sf_cases.
Qed.

Lemma sqrt_num_eq (x x' : float) :
  num_eq x x' -> num_eq (PrimFloat.sqrt x) (PrimFloat.sqrt x').
Proof.
  intros [->|[[s Hx]%is_zero_spec [s' Hx']%is_zero_spec]]; [now left|].
  apply num_eq_intro. rewrite !FloatAxioms.sqrt_spec, Hx, Hx'. sf_cases.
Qed.


(** A number that is not [-0] absorbs the sign of a zero added to it. *)
Lemma add_absorb (p d d' : float) :
  ~ neg_zero p -> num_eq d d' -> (p + d)%float = (p + d')%float.
Proof.
  intros Hp [->|[[s Hd]%is_zero_spec [s' Hd']%is_zero_spec]]; [reflexivity|].
  apply Prim2SF_inj. rewrite !FloatAxioms.add_spec, Hd, Hd'.
  unfold neg_zero in Hp.
  destruct (Prim2SF p) as [[]|[]| |]; try reflexivity;
    now destruct s, s'.
Qed.

(** [l || 1] does not see the sign of a zero. *)
Lemma js_or_num_eq (l l' : float) :
  num_eq l l' -> js_or l lit1 = js_or l' lit1.
Proof.
  intros [->|[H H']]; [reflexivity|].
  unfold js_or; cbn [truthy NF FloatNumber]. unfold float_truthy.
  now rewrite H, H'.
Qed.

(** A zero times a finite number is a zero. *)
Lemma mul_zero_l (z r : float) :
  PrimFloat.is_zero z = true -> finite r ->
  PrimFloat.is_zero (z * r)%float = true.
Proof.
  intros [s Hz]%is_zero_spec Hr%finite_spec.
  destruct (Prim2SF r) as [sr|sr| |sr m e] eqn:Er; try discriminate.
  - apply is_zero_intro with (xorb s sr).
    now rewrite FloatAxioms.mul_spec, Er, Hz.
  - apply is_zero_intro with (xorb s sr).
    now rewrite FloatAxioms.mul_spec, Er, Hz.
Qed.

Lemma vec_eq_refl (v : Vec3 float) : vec_eq v v.
Proof. repeat split; apply num_eq_refl. Qed.

Lemma vec_zero_eq (u v : Vec3 float) : vec_zero u -> vec_zero v -> vec_eq u v.
Proof.
  intros (Hx & Hy & Hz) (Hx' & Hy' & Hz'). repeat split; now right.
Qed.

Lemma vadd_vec_eq (u u' v v' : Vec3 float) :
  vec_eq u u' -> vec_eq v v' -> vec_eq (vadd u v) (vadd u' v').
Proof.
  intros (Hx & Hy & Hz) (Hx' & Hy' & Hz').
  repeat split; now apply add_num_eq.
Qed.

Lemma vscale_vec_eq (u u' : Vec3 float) (s : float) :
  vec_eq u u' -> vec_eq (vscale u s) (vscale u' s).
Proof.
  intros (Hx & Hy & Hz).
  repeat split; apply mul_num_eq; auto using num_eq_refl.
Qed.

Lemma vlength_num_eq (u u' : Vec3 float) :
  vec_eq u u' -> num_eq (vlength u) (vlength u').
Proof.
  intros (Hx & Hy & Hz). unfold vlength; cbn [Math_sqrt NF FloatNumber].
  apply sqrt_num_eq.
  repeat apply add_num_eq; now apply mul_num_eq.
Qed.

(** [normalize] maps vectors equal up to the signs of zeros to such
    vectors: the length does not see the signs. *)
Lemma vnormalize_vec_eq (u u' : Vec3 float) :
  vec_eq u u' -> vec_eq (vnormalize u) (vnormalize u').
Proof.
  intros H. unfold vnormalize.
  rewrite (js_or_num_eq _ _ (vlength_num_eq u u' H)).
  now apply vscale_vec_eq.
Qed.


Lemma vscale_vec_zero (z : Vec3 float) (r : float) :
  vec_zero z -> finite r -> vec_zero (vscale z r).
Proof.
  intros (Hx & Hy & Hz) Hr. repeat split; now apply mul_zero_l.
Qed.

Lemma iter_vscale_zero (n : nat) (ext : Vec3 float) (r : float) :
  vec_zero ext -> finite r ->
  vec_zero (Nat.iter n (fun v => vscale v r) ext).
Proof.
  intros Hz Hr. induction n as [|n IH]; [exact Hz|].
  simpl. now apply vscale_vec_zero.
Qed.

Lemma point_add_absorb (p : Point float) (d d' : Vec3 float) :
  point_no_neg_zero p -> vec_eq d d' -> point_add p d = point_add p d'.
Proof.
  destruct p as [[p0 p1] p2]. intros (H0 & H1 & H2) (Hx & Hy & Hz).
  unfold point_add; cbn [num_add NF FloatNumber].
  now rewrite (add_absorb p0 _ _ H0 Hx), (add_absorb p1 _ _ H1 Hy),
     (add_absorb p2 _ _ H2 Hz).
Qed.

Lemma point_add_no_neg_zero (p : Point float) (d : Vec3 float) :
  point_no_neg_zero p -> point_no_neg_zero (point_add p d).
Proof.
  destruct p as [[p0 p1] p2]. intros (H0 & H1 & H2).
  repeat split; now apply add_not_neg_zero.
Qed.

(** ** The chain when a term is a vector of zeros *)

(** No coordinate of a point of the chain is [-0], whatever the
    arguments are. *)
Lemma pure_chain_no_neg_zero (n : nat) (pl temp time b noise : float)
      (ext : Vec3 float) (k : nat) :
  forall p,
  p_points (pure_chain n pl temp time b noise ext) !! k = Some p ->
  point_no_neg_zero p.
Proof.
  induction k as [|k IH]; intros p Hp.
  - unfold pure_chain in Hp.
    rewrite (pure_steps_head _ _ _ _ _ _ origin) in Hp by reflexivity.
    injection Hp as <-. repeat split; discriminate.
  - pose proof (lookup_lt_Some _ _ _ Hp) as Hlt.
    unfold pure_chain in Hlt. rewrite pure_steps_length in Hlt.
    simpl in Hlt.
    destruct (pure_chain_segment n k pl temp time b noise ext ltac:(lia))
      as (q & Hq & Hq').
    rewrite Hq' in Hp. injection Hp as <-.
    apply point_add_no_neg_zero. now apply IH.
Qed.

Lemma pure_chain_last (n : nat) (pl temp time b noise : float)
      (ext : Vec3 float) :
  p_points (pure_chain n pl temp time b noise ext) !! n
  = Some (List.last (p_points (pure_chain n pl temp time b noise ext))
            origin).
Proof.
  assert (Hlen : length (p_points (pure_chain n pl temp time b noise ext))
                 = S n).
  { unfold pure_chain. rewrite pure_steps_length. simpl. lia. }
  set (pts := p_points (pure_chain n pl temp time b noise ext)) in *.
  replace n with (length pts - 1)%nat by lia.
  apply lookup_last. destruct pts; simpl in *; [lia|discriminate].
Qed.

(** With [noiseLevel] a zero and a finite power, the thermal scale is a
    zero. *)
Lemma thermal_zero (pl temp noise : float) :
  finite (js_pow_half host (temp / pl)%float) ->
  PrimFloat.is_zero noise = true ->
  PrimFloat.is_zero (thermal pl temp noise) = true.
Proof.
  intros Hp Hn.
  unfold thermal; cbn [num_pow_half num_mul num_div NF FloatNumber].
  now apply mul_zero_r.
Qed.

(** A fluctuation scaled by a zero is a vector of zeros when the sines
    and the cosine are finite. *)
Lemma fluctuation_zero (time th : float) (i : Z) :
  PrimFloat.is_zero th = true ->
  finite (js_sin host (time * 0.5)%float) ->
  finite (js_sin host (time + float_of_Z i)%float) ->
  finite (js_cos host (time + float_of_Z i)%float) ->
  vec_zero (fluctuation_fields time th i).
Proof.
  intros Hth Hz Hs Hc. unfold fluctuation_fields, vec_zero.
  cbn [vx vy vz Math_sin Math_cos num_mul num_add lit_half of_int NF
       FloatNumber].
  repeat split; apply mul_zero_r; auto; now apply mul_half_finite.
Qed.


(** Two chains with the same force and [bendingRigidity] whose
    fluctuations are vectors of zeros: the same points, the same force,
    and directions equal up to the sign of a zero. *)
Lemma pure_chain_noise_off (n : nat) (b : float) (ext : Vec3 float)
      (pl1 temp1 time1 noise1 pl2 temp2 time2 noise2 : float) :
  (forall i, (1 <= i <= Z.of_nat n)%Z ->
     vec_zero (fluctuation_fields time1 (thermal pl1 temp1 noise1) i)) ->
  (forall i, (1 <= i <= Z.of_nat n)%Z ->
     vec_zero (fluctuation_fields time2 (thermal pl2 temp2 noise2) i)) ->
  p_points (pure_chain n pl1 temp1 time1 b noise1 ext)
  = p_points (pure_chain n pl2 temp2 time2 b noise2 ext)
  /\ vec_eq (p_direction (pure_chain n pl1 temp1 time1 b noise1 ext))
            (p_direction (pure_chain n pl2 temp2 time2 b noise2 ext))
  /\ p_force (pure_chain n pl1 temp1 time1 b noise1 ext)
     = p_force (pure_chain n pl2 temp2 time2 b noise2 ext).
Proof.
  induction n as [|n IH]; intros H1 H2.
  - repeat split; apply num_eq_refl.
  - destruct IH as (Hp & Hd & Hf); [intros; apply H1; lia
                                     |intros; apply H2; lia|].
    pose proof (pure_chain_last n pl1 temp1 time1 b noise1 ext) as Hlast.
    apply pure_chain_no_neg_zero in Hlast.
    rewrite !pure_chain_S.
    set (P1 := pure_chain n pl1 temp1 time1 b noise1 ext) in *.
    set (P2 := pure_chain n pl2 temp2 time2 b noise2 ext) in *.
    assert (Hdir :
      vec_eq (p_direction (pure_step time1 b (thermal pl1 temp1 noise1)
                             (1 + Z.of_nat n) P1))
             (p_direction (pure_step time2 b (thermal pl2 temp2 noise2)
                             (1 + Z.of_nat n) P2))).
    { cbn [p_direction pure_step]. unfold pre_normalize. rewrite Hf.
      apply vadd_vec_eq; [|apply vec_eq_refl].
      apply vnormalize_vec_eq, vadd_vec_eq; [exact Hd|].
      apply vec_zero_eq; [apply H1|apply H2]; lia. }
    split; [|split].
    + cbn [p_points pure_step] in *. rewrite <- Hp. do 2 f_equal.
      now apply point_add_absorb.
    + exact Hdir.
    + cbn [p_force pure_step]. now rewrite Hf.
Qed.

(** C10 (noise-off noninterference), amended: two calls with the same
    [length], [bendingRigidity] and [externalForce] fields, both with
    [noiseLevel] a zero, each with
    [(temperature / persistenceLength) ** 0.5] finite (so the thermal
    scale is a zero, which [persistenceLength = 0] does not give) and
    with [Math.sin] and [Math.cos] finite at the arguments its loop
    passes them (so every fluctuation is a vector of zeros, which a
    non-finite [time] does not give), return the same points, coordinate
    for coordinate, whatever their [time], [temperature] and
    [persistenceLength]. *)
Theorem noise_off_same_points (len : Z) (b : float) (ext : Vec3 float)
        (pl1 temp1 time1 noise1 pl2 temp2 time2 noise2 : float)
        (e1 e2 : loc) (h1 h2 : Heap float) :
  PrimFloat.is_zero noise1 = true ->
  PrimFloat.is_zero noise2 = true ->
  finite (js_pow_half host (temp1 / pl1)%float) ->
  finite (js_pow_half host (temp2 / pl2)%float) ->
  trig_finite host time1 len ->
  trig_finite host time2 len ->
  h1 !! e1 = Some ext ->
  h2 !! e2 = Some ext ->
  exists pts h1' h2',
    calculateWLCChain len pl1 temp1 time1 b noise1 e1 h1 = Ok (pts, h1')
    /\ calculateWLCChain len pl2 temp2 time2 b noise2 e2 h2 = Ok (pts, h2').
Proof.
  intros Hn1 Hn2 Hp1 Hp2 [Hz1 Ht1] [Hz2 Ht2] He1 He2.
  destruct (calculateWLCChain_spec len pl1 temp1 time1 b noise1 e1 ext h1 He1)
    as (h1' & Hrun1 & _).
  destruct (calculateWLCChain_spec len pl2 temp2 time2 b noise2 e2 ext h2 He2)
    as (h2' & Hrun2 & _).
  eexists _, h1', h2'. split; [exact Hrun1|].
  rewrite Hrun2. do 2 f_equal. symmetry.
  apply pure_chain_noise_off.
  - intros i Hi. destruct (Ht1 i ltac:(lia)) as [Hs Hc].
    apply fluctuation_zero; auto using thermal_zero.
  - intros i Hi. destruct (Ht2 i ltac:(lia)) as [Hs Hc].
    apply fluctuation_zero; auto using thermal_zero.
Qed.

End FloatClaims.

Lemma degeneracy_tolerance_witness :
  exists pts h',
    calculateWLCChain (NF := FloatNumber sample_host) 3 50%float 300%float
      0.25%float 0%float 1%float 0%nat [mkVec3 0%float 0%float 0%float]
    = Ok (pts, h')
    /\ Z.of_nat (length pts) = 3%Z
    /\ (forall k p, (1 <= k)%nat -> pts !! k = Some p -> point_non_finite p)
    /\ (forall (len' : Z) (pl' temp' time' b' noise' : float),
          exists r,
            calculateWLCChain (NF := FloatNumber sample_host) len' pl' temp'
              time' b' noise' 0%nat [mkVec3 0%float 0%float 0%float] = Ok r).
Proof.
  apply (degeneracy_tolerance sample_host 3 50%float 300%float 0.25%float
           0%float 1%float 0%nat (mkVec3 0%float 0%float 0%float)).
  - reflexivity.
  - lia.
  - reflexivity.
Defined.

(** * The literal scenario, on both readings of the numbers *)

(** C2 (literal scenario): [calculateWLCChain(3, 50, 300, 0, 1, 0, (0,0,0))]
    returns exactly [(0,0,0), (1,0,0), (2,0,0)]: on binary64, for every
    host whose [Math.sin] and [Math.cos] are finite at 1 and 2 and whose
    [6 ** 0.5] is finite, and on exact numbers. *)
Theorem literal_scenario (host : Host) (e : loc) (h : Heap float)
        (eR : loc) (hR : Heap R) :
  finite (host_pow_half host 6) ->
  finite (host_sin host 1) -> finite (host_cos host 1) ->
  finite (host_sin host 2) -> finite (host_cos host 2) ->
  h !! e = Some (mkVec3 0%float 0%float 0%float) ->
  hR !! eR = Some (mkVec3 0%R 0%R 0%R) ->
  (exists h',
     calculateWLCChain (NF := FloatNumber host) 3 50%float 300%float
       0%float 1%float 0%float e h
     = Ok ([(0%float, 0%float, 0%float); (1%float, 0%float, 0%float);
            (2%float, 0%float, 0%float)], h'))
  /\ (exists h',
        calculateWLCChain (NF := RealNumber) 3 50%R 300%R 0%R 1%R 0%R eR hR
        = Ok ([(0%R, 0%R, 0%R); (1%R, 0%R, 0%R); (2%R, 0%R, 0%R)], h')).
Proof.
  intros Hp Hs1 Hc1 Hs2 Hc2 He HeR. split.
  - now apply literal_scenario_float.
  - now apply literal_scenario_real.
Qed.

Lemma literal_scenario_witness :
  (exists h',
     calculateWLCChain (NF := FloatNumber sample_host) 3 50%float 300%float
       0%float 1%float 0%float 0%nat [mkVec3 0%float 0%float 0%float]
     = Ok ([(0%float, 0%float, 0%float); (1%float, 0%float, 0%float);
            (2%float, 0%float, 0%float)], h'))
  /\ (exists h',
        calculateWLCChain (NF := RealNumber) 3 50%R 300%R 0%R 1%R 0%R 0%nat
          [mkVec3 0%R 0%R 0%R]
        = Ok ([(0%R, 0%R, 0%R); (1%R, 0%R, 0%R); (2%R, 0%R, 0%R)], h')).
Proof.
  apply (literal_scenario sample_host 0%nat
           [mkVec3 0%float 0%float 0%float] 0%nat [mkVec3 0%R 0%R 0%R]);
    reflexivity.
Defined.

(** * The force term, the segments and the noise-free chain on binary64 *)

Section SampleRuns.
#[local] Existing Instance SampleNumber.

(** C1, as stated, fails on the numbers the code computes with.  The
    [force] object is multiplied by the rounded [1 / bendingRigidity]
    once per step and each product is rounded.
    With [externalForce = (1, 0, 0)] and [bendingRigidity = 10] the
    vector after step 3 has [x = 0.0010000000000000002], not the double
    [0.001] nearest to [1 * (1/10)^3].
    With [externalForce = (5, 0, 0)] and [bendingRigidity = 3] the vector
    after step 2 has [x = 0.55555555555555547], where five times the
    square of [1 / 3] is [0.55555555555555558].
    With [externalForce = (1e308, 0, 0)] and [bendingRigidity = 0.1]
    (which is not zero) the vector after step 1 has [x = Infinity]. *)
Lemma force_decay_counterexample :
  (exists s h',
     chain_steps 3 50%float 300%float
       0%float 10%float 0%float 0%nat [mkVec3 1%float 0%float 0%float]
     = Ok (s, h')
     /\ h' !! force s
        = Some (mkVec3 0.0010000000000000002%float 0%float 0%float)
     /\ PrimFloat.eqb 0.0010000000000000002%float 0.001%float = false)
  /\ (exists s h',
        chain_steps 2 50%float 300%float
          0%float 3%float 0%float 0%nat [mkVec3 5%float 0%float 0%float]
        = Ok (s, h')
        /\ h' !! force s
           = Some (mkVec3 0.55555555555555547%float 0%float 0%float)
        /\ (5 * ((1 / 3) * (1 / 3)))%float = 0.55555555555555558%float
        /\ (5 / 9)%float = 0.55555555555555558%float
        /\ PrimFloat.eqb 0.55555555555555547%float
             0.55555555555555558%float = false)
  /\ (exists s h',
        chain_steps 1 50%float 300%float
          0%float 0.1%float 0%float 0%nat
          [mkVec3 1e308%float 0%float 0%float]
        = Ok (s, h')
        /\ h' !! force s = Some (mkVec3 infinity 0%float 0%float)
        /\ PrimFloat.is_zero 0.1%float = false).
Proof.
  split; [|split].
  - eexists _, _. split; [vm_compute; reflexivity|].
    split; reflexivity.
  - eexists _, _. split; [vm_compute; reflexivity|].
    repeat split; reflexivity.
  - eexists _, _. split; [vm_compute; reflexivity|].
    split; reflexivity.
Qed.

(** A segment that is not of unit length, on binary64: with force
    [(1, 0, 0)], no noise and [bendingRigidity = 1], the first segment is
    [(2, 0, 0)]. *)
Lemma segment_of_length_two :
  exists h',
    calculateWLCChain 2 50%float 300%float
      0%float 1%float 0%float 0%nat [mkVec3 1%float 0%float 0%float]
    = Ok ([(0%float, 0%float, 0%float); (2%float, 0%float, 0%float)], h')
    /\ segment_length (2%float, 0%float, 0%float)
         (0%float, 0%float, 0%float) = 2%float.
Proof.
  eexists. split; [vm_compute; reflexivity|reflexivity].
Qed.



(** C10, as stated, fails on the numbers the code computes with.  With
    [persistenceLength = 0] the ratio [300 / 0] is [Infinity], which is
    [>= 0], its power is [Infinity] and the thermal scale
    [Infinity * 0] is [NaN]: the call returns [NaN] coordinates from
    index 1 on, where the call with [persistenceLength = 50] and the
    same other arguments returns [(0,0,0), (1,0,0), (2,0,0)].  So does
    the call with an infinite [time], whose ratio is 6. *)
Lemma noise_off_counterexample :
  exists h1' h2' h3',
    PrimFloat.leb 0%float (300 / 0)%float = true
    /\ PrimFloat.leb 0%float (300 / 50)%float = true
    /\ calculateWLCChain 3 0%float
         300%float 0%float 1%float 0%float 0%nat
         [mkVec3 0%float 0%float 0%float]
       = Ok ([(0%float, 0%float, 0%float); (nan, nan, nan);
              (nan, nan, nan)], h1')
    /\ calculateWLCChain 3 50%float
         300%float 0%float 1%float 0%float 0%nat
         [mkVec3 0%float 0%float 0%float]
       = Ok ([(0%float, 0%float, 0%float); (1%float, 0%float, 0%float);
              (2%float, 0%float, 0%float)], h2')
    /\ calculateWLCChain 3 50%float
         300%float infinity 1%float 0%float 0%nat
         [mkVec3 0%float 0%float 0%float]
       = Ok ([(0%float, 0%float, 0%float); (nan, nan, nan);
              (nan, nan, nan)], h3')
    /\ [(0%float, 0%float, 0%float); (nan, nan, nan); (nan, nan, nan)]
       <> [(0%float, 0%float, 0%float); (1%float, 0%float, 0%float);
           (2%float, 0%float, 0%float)].
Proof.
  eexists _, _, _.
  split; [reflexivity|]. split; [reflexivity|].
  split; [vm_compute; reflexivity|].
  split; [vm_compute; reflexivity|].
  split; [vm_compute; reflexivity|].
  intros H.
  apply (f_equal (fun l : list (Point float) =>
                    match l with
                    | _ :: (x, _, _) :: _ => PrimFloat.is_nan x
                    | _ => false
                    end)) in H.
  discriminate H.
Qed.

Lemma noise_off_same_points_witness :
  exists pts h1' h2',
    calculateWLCChain 3 50%float 300%float
      0%float 2%float 0%float 0%nat [mkVec3 1%float 2%float 3%float]
    = Ok (pts, h1')
    /\ calculateWLCChain 3 10%float
         500%float 0.25%float 2%float 0%float 0%nat
         [mkVec3 1%float 2%float 3%float]
       = Ok (pts, h2').
Proof.
  apply (noise_off_same_points sample_host 3 2%float
           (mkVec3 1%float 2%float 3%float)
           50%float 300%float 0%float 0%float
           10%float 500%float 0.25%float 0%float
           0%nat 0%nat [mkVec3 1%float 2%float 3%float]
           [mkVec3 1%float 2%float 3%float]).
  - reflexivity.
  - reflexivity.
  - reflexivity.
  - reflexivity.
  - split; [reflexivity|]. intros i Hi.
    assert (Hc : i = 1%Z \/ i = 2%Z) by lia.
    destruct Hc as [->| ->]; split; reflexivity.
  - split; [reflexivity|]. intros i Hi.
    assert (Hc : i = 1%Z \/ i = 2%Z) by lia.
    destruct Hc as [->| ->]; split; reflexivity.
  - reflexivity.
  - reflexivity.
Defined.

End SampleRuns.

(** * Beyond the claims: the position buffer of [DNASegment] *)

Section RendererFacts.
Context {F G : Type}.
Variable fround : F -> G.
Variable f32_zero : G.

Lemma point_array_length (p : Point F) : length (point_array p) = 3%nat.
Proof. now destruct p as [[p0 p1] p2]. Qed.

Lemma flat_positions_length (points : list (Point F)) :
  length (flat_positions fround points) = (3 * length points)%nat.
Proof.
  unfold flat_positions. induction points as [|p points IH]; [reflexivity|].
  cbn [flat_map]. rewrite length_app, length_map, point_array_length, IH.
  simpl. lia.
Qed.

Lemma flat_positions_snoc (points : list (Point F)) (p : Point F) :
  flat_positions fround (points ++ [p])
  = flat_positions fround points ++ map fround (point_array p).
Proof.
  unfold flat_positions. rewrite flat_map_app. cbn [flat_map].
  now rewrite app_nil_r.
Qed.

(** The loop, started at [i] on a buffer that holds the first [i] points
    and zeros after them, never writes out of range and ends with the
    buffer holding all the points. *)
Lemma fill_positions_spec (points : list (Point F)) (n : nat) :
  forall (i : nat) (positions : list G),
  (i + n)%nat = length points ->
  positions
  = flat_positions fround (take i points) ++ replicate (3 * n) f32_zero ->
  fill_positions fround points n i positions
  = Normal (flat_positions fround points).
Proof.
  induction n as [|n IH]; intros i positions Hin Hpos.
  - cbn [fill_positions]. subst positions.
    rewrite take_ge by lia. simpl. now rewrite app_nil_r.
  - cbn [fill_positions].
    destruct (lookup_lt_is_Some_2 points i ltac:(lia)) as [p Hp].
    rewrite Hp. unfold Float32Array_set.
    pose proof (flat_positions_length (take i points)) as Hlen.
    rewrite length_take_le in Hlen by lia.
    assert (Hfit : (i * 3 + length (point_array p)
                    <=? length positions)%nat = true).
    { apply Nat.leb_le. subst positions.
      rewrite length_app, length_replicate, Hlen, point_array_length. lia. }
    rewrite Hfit. apply IH; [lia|].
    rewrite (take_S_r _ _ _ Hp), flat_positions_snoc. subst positions.
    replace (3 * S n)%nat with (3 + 3 * n)%nat by lia.
    rewrite replicate_add.
    replace (i * 3)%nat
      with (length (flat_positions fround (take i points)) + 0)%nat by lia.
    rewrite list_inserts_app_r, list_inserts_0_r, <- app_assoc; [reflexivity|].
    now rewrite length_map, point_array_length, length_replicate.
Qed.

Lemma DNASegment_frame_mounted (line : option (BufferAttribute G))
      (points : list (Point F)) :
  DNASegment_frame fround f32_zero (Some line) points
  = Normal (Some (Some (mkBufferAttribute (flat_positions fround points)
                          3 true))).
Proof.
  unfold DNASegment_frame, Float32Array_new.
  rewrite (fill_positions_spec points (length points) 0
             (replicate (length points * 3) f32_zero)).
  - reflexivity.
  - reflexivity.
  - simpl. f_equal. lia.
Qed.

(** X1 (buffer layout): on a mounted line the frame callback of
    [DNASegment] raises nothing, whatever the points are (none at all
    included): no write leaves the buffer.  The new position attribute
    holds the coordinates of the points one after the other, so
    [3 * points.length] numbers, with item size 3 and [needsUpdate] set. *)
Theorem DNASegment_frame_layout (line : option (BufferAttribute G))
        (points : list (Point F)) :
  DNASegment_frame fround f32_zero (Some line) points
  = Normal (Some (Some (mkBufferAttribute (flat_positions fround points)
                          3 true)))
  /\ length (flat_positions fround points) = (3 * length points)%nat.
Proof.
  split; [apply DNASegment_frame_mounted | apply flat_positions_length].
Qed.

Lemma flat_positions_lookup (points : list (Point F)) (i : nat)
      (a b c : F) :
  points !! i = Some (a, b, c) ->
  flat_positions fround points !! (3 * i)%nat = Some (fround a)
  /\ flat_positions fround points !! (3 * i + 1)%nat = Some (fround b)
  /\ flat_positions fround points !! (3 * i + 2)%nat = Some (fround c).
Proof.
  revert i. induction points as [|p points IH]; intros i Hi; [discriminate|].
  destruct i as [|i].
  - injection Hi as ->. repeat split; reflexivity.
  - destruct (IH i Hi) as (Ha & Hb & Hc).
    destruct p as [[p0 p1] p2].
    replace (3 * S i)%nat with (S (S (S (3 * i)))) by lia.
    repeat split; assumption.
Qed.

(** X2 (stride 3): the coordinates of [points[i]] are in the buffer at
    [3 * i], [3 * i + 1] and [3 * i + 2], each converted as the typed
    array converts on a write. *)
Theorem DNASegment_frame_index (line : option (BufferAttribute G))
        (points : list (Point F)) (i : nat) (a b c : F) :
  points !! i = Some (a, b, c) ->
  exists attr,
    DNASegment_frame fround f32_zero (Some line) points
    = Normal (Some (Some attr))
    /\ attr_array attr !! (3 * i)%nat = Some (fround a)
    /\ attr_array attr !! (3 * i + 1)%nat = Some (fround b)
    /\ attr_array attr !! (3 * i + 2)%nat = Some (fround c).
Proof.
  intros Hi.
  eexists. split; [apply DNASegment_frame_mounted|].
  cbn [attr_array]. now apply flat_positions_lookup.
Qed.

End RendererFacts.

Lemma DNASegment_frame_index_witness :
  exists attr,
    DNASegment_frame (fun x : Z => (x * 2)%Z) 0%Z (Some None)
      [(0, 0, 0)%Z; (1, 2, 3)%Z]
    = Normal (Some (Some attr))
    /\ attr_array attr !! 3%nat = Some 2%Z
    /\ attr_array attr !! 4%nat = Some 4%Z
    /\ attr_array attr !! 5%nat = Some 6%Z.
Proof.
  apply (DNASegment_frame_index (fun x : Z => (x * 2)%Z) 0%Z None
           [(0, 0, 0)%Z; (1, 2, 3)%Z] 1 1%Z 2%Z 3%Z).
  reflexivity.
Defined.

(** * Beyond the claims: the generator, for every reading of the numbers *)

Section GeneratorExtras.
Context {F : Type} {NF : Number F}.

(** An iteration, with the heap it leaves written out: one new object (the
    fluctuation) and four assignments to [direction] and [force]. *)
Lemma loop_body_run (time b th : F) (i : Z) (pts : list (Point F))
      (d f : loc) (dv fv : Vec3 F) (h : Heap F) :
  d <> f -> h !! d = Some dv -> h !! f = Some fv ->
  (1 <= i)%Z -> Z.of_nat (length pts) = i ->
  let fl := fluctuation_fields time th i in
  let P := pure_step time b th i (mkPure pts dv fv) in
  loop_body time b th i (mkLocals pts d f) h
  = Ok (mkLocals (p_points P) d f,
        <[d := p_direction P]>
          (<[f := p_force P]>
             (<[d := vnormalize (vadd dv fl)]>
                (<[d := vadd dv fl]> (h ++ [fl]))))).
Proof.
  intros Hdf Hd Hf Hi Hlen fl P.
  set (h1 := h ++ [fl]).
  assert (Hd1 : h1 !! d = Some dv) by now apply lookup_alloc_old.
  assert (Hf1 : h1 !! f = Some fv) by now apply lookup_alloc_old.
  assert (Hfl : h1 !! length h = Some fl) by apply lookup_alloc_new.
  set (h2 := <[d := vadd dv fl]> h1).
  assert (Hd2 : h2 !! d = Some (vadd dv fl)) by now apply lookup_stored with dv.
  set (h3 := <[d := vnormalize (vadd dv fl)]> h2).
  assert (Hd3 : h3 !! d = Some (vnormalize (vadd dv fl)))
    by now apply lookup_stored with (vadd dv fl).
  assert (Hf3 : h3 !! f = Some fv).
  { unfold h3, h2. rewrite !list_lookup_insert_ne by congruence. exact Hf1. }
  set (h4 := <[f := p_force P]> h3).
  assert (Hf4 : h4 !! f = Some (p_force P)) by now apply lookup_stored with fv.
  assert (Hd4 : h4 !! d = Some (vnormalize (vadd dv fl))).
  { unfold h4. rewrite list_lookup_insert_ne by congruence. exact Hd3. }
  set (h5 := <[d := p_direction P]> h4).
  assert (Hd5 : h5 !! d = Some (p_direction P))
    by now apply lookup_stored with (vnormalize (vadd dv fl)).
  unfold loop_body. cbn [direction force points]. unfold new_Vector3.
  rewrite (bind_ok _ _ h h1 (length h)) by reflexivity.
  rewrite (bind_ok _ _ _ _ _ (Vector3_add_ok _ _ _ _ _ Hd1 Hfl)). fold h2.
  rewrite (bind_ok _ _ _ _ _ (Vector3_normalize_ok _ _ _ Hd2)). fold h3.
  rewrite (bind_ok _ _ _ _ _ (Vector3_multiplyScalar_ok _ _ _ _ Hf3)).
  change (<[f := vscale fv (num_div lit1 b)]> h3) with h4.
  rewrite (bind_ok _ _ _ _ _ (Vector3_add_ok _ _ _ _ _ Hd4 Hf4)).
  rewrite (array_get_last pts origin i Hi Hlen).
  change (<[d := vadd (vnormalize (vadd dv fl)) (p_force P)]> h4) with h5.
  now rewrite (bind_ok _ _ _ _ _ (load_ok _ _ _ Hd5)).
Qed.

(** The loop, with the number of objects it allocates. *)
Lemma for_loop_alloc (time b th : F) (n : nat) :
  forall (i : Z) (pts : list (Point F)) (d f : loc) (dv fv : Vec3 F)
         (h : Heap F),
  d <> f -> h !! d = Some dv -> h !! f = Some fv ->
  (1 <= i)%Z -> Z.of_nat (length pts) = i ->
  exists h',
    for_loop (loop_body time b th) n i (mkLocals pts d f) h
    = Ok (mkLocals (p_points (pure_steps time b th n i (mkPure pts dv fv)))
            d f, h')
    /\ length h' = (length h + n)%nat.
Proof.
  induction n as [|n IH]; intros i pts d f dv fv h Hdf Hd Hf Hi Hlen.
  - exists h. split; [reflexivity|lia].
  - pose proof (loop_body_run time b th i pts d f dv fv h Hdf Hd Hf Hi Hlen)
      as Hrun. cbv zeta in Hrun.
    destruct (loop_body_spec time b th i pts d f dv fv h Hdf Hd Hf Hi Hlen)
      as (h1 & Hrun1 & Hd1 & Hf1 & _).
    set (Q := pure_step time b th i (mkPure pts dv fv)) in *.
    assert (Hh1 : length h1 = S (length h)).
    { rewrite Hrun in Hrun1. injection Hrun1 as <-.
      rewrite !length_insert, length_app. simpl. lia. }
    assert (HlenQ : Z.of_nat (length (p_points Q)) = (i + 1)%Z).
    { unfold Q. simpl. rewrite length_app. simpl. lia. }
    destruct (IH (i + 1)%Z (p_points Q) d f (p_direction Q) (p_force Q) h1
                Hdf Hd1 Hf1 ltac:(lia) HlenQ) as (h2 & Hrun2 & Hh2).
    exists h2. split; [|lia].
    simpl for_loop. rewrite (bind_ok _ _ _ _ _ Hrun1).
    replace Q with (mkPure (p_points Q) (p_direction Q) (p_force Q))
      at 1 by reflexivity.
    exact Hrun2.
Qed.

(** The points of the recurrence only grow. *)
Lemma pure_steps_take (time b th : F) (n : nat) :
  forall (i : Z) (s : Pure F),
  take (length (p_points s)) (p_points (pure_steps time b th n i s))
  = p_points s.
Proof.
  induction n as [|n IH]; intros i s.
  - simpl. apply firstn_all.
  - simpl pure_steps.
    specialize (IH (i + 1)%Z (pure_step time b th i s)).
    cbn [p_points pure_step] in IH.
    rewrite length_app in IH. simpl length in IH.
    set (X := p_points (pure_steps time b th n (i + 1)
                          (pure_step time b th i s))) in *.
    assert (Htt : take (length (p_points s))
                    (take (length (p_points s) + 1) X)
                  = take (length (p_points s)) X).
    { rewrite take_take. f_equal. lia. }
    rewrite <- Htt, IH, take_app_length. reflexivity.
Qed.

(** X3 (short chains): for [length <= 1], zero and negative lengths
    included, the loop does not run: the call returns the single point
    [(0, 0, 0)], and the heap it leaves is the caller's followed by the
    two vectors it created, [direction = (1, 0, 0)] and the copy of
    [externalForce]. *)
Theorem calculateWLCChain_short (len : Z) (pl temp time b noise : F)
        (e : loc) (ext : Vec3 F) (h : Heap F) :
  (len <= 1)%Z ->
  h !! e = Some ext ->
  calculateWLCChain len pl temp time b noise e h
  = Ok ([(lit0, lit0, lit0)], h ++ [mkVec3 lit1 lit0 lit0; ext]).
Proof.
  intros Hlen He.
  unfold calculateWLCChain, chain_steps.
  replace (Z.to_nat (len - 1)) with 0%nat by lia.
  unfold prologue, new_Vector3. cbn [for_loop].
  set (h1 := h ++ [mkVec3 lit1 lit0 lit0]).
  assert (He1 : h1 !! e = Some ext) by now apply lookup_alloc_old.
  unfold bind, alloc, ret. fold h1. rewrite (load_ok _ _ _ He1).
  cbn [points]. unfold h1. rewrite <- app_assoc.
  now destruct ext.
Qed.

(** X4 (prefix stability): with the other arguments equal, the points of
    a call with [length = len1 >= 1] are the first [len1] points of a call
    with any larger length: a longer chain only adds points at the end. *)
Theorem calculateWLCChain_prefix (len1 len2 : Z)
        (pl temp time b noise : F) (e : loc) (ext : Vec3 F) (h : Heap F) :
  (1 <= len1)%Z -> (len1 <= len2)%Z ->
  h !! e = Some ext ->
  exists pts1 pts2 h1 h2,
    calculateWLCChain len1 pl temp time b noise e h = Ok (pts1, h1)
    /\ calculateWLCChain len2 pl temp time b noise e h = Ok (pts2, h2)
    /\ pts1 = take (Z.to_nat len1) pts2.
Proof.
  intros H1 H2 He.
  destruct (calculateWLCChain_spec len1 pl temp time b noise e ext h He)
    as (h1 & Hrun1 & _).
  destruct (calculateWLCChain_spec len2 pl temp time b noise e ext h He)
    as (h2 & Hrun2 & _).
  eexists _, _, h1, h2. split; [exact Hrun1|]. split; [exact Hrun2|].
  unfold pure_chain.
  replace (Z.to_nat (len2 - 1))
    with (Z.to_nat (len1 - 1) + Z.to_nat (len2 - len1))%nat by lia.
  rewrite pure_steps_add.
  set (s1 := pure_steps time b (thermal pl temp noise) (Z.to_nat (len1 - 1))
               1 (mkPure [origin] (mkVec3 lit1 lit0 lit0) ext)).
  replace (Z.to_nat len1) with (length (p_points s1)).
  - symmetry. apply pure_steps_take.
  - unfold s1. rewrite pure_steps_length. simpl. lia.
Qed.

(** X5 (allocation): a call allocates one object per point it returns and
    one more ([direction], the copy of the force and a fluctuation per
    iteration), and no object that existed before the call is changed. *)
Theorem calculateWLCChain_allocation (len : Z) (pl temp time b noise : F)
        (e : loc) (ext : Vec3 F) (h : Heap F) :
  h !! e = Some ext ->
  exists pts h',
    calculateWLCChain len pl temp time b noise e h = Ok (pts, h')
    /\ length h' = (length h + length pts + 1)%nat
    /\ extends h h'.
Proof.
  intros He.
  destruct (calculateWLCChain_spec len pl temp time b noise e ext h He)
    as (h' & Hrun & Hext).
  eexists _, h'. split; [exact Hrun|]. split; [|exact Hext].
  set (h1 := h ++ [mkVec3 lit1 lit0 lit0]).
  set (h2 := h1 ++ [ext]).
  assert (Hlen1 : length h1 = S (length h)).
  { unfold h1. rewrite length_app. simpl. lia. }
  assert (Hlen2 : length h2 = S (S (length h))).
  { unfold h2. rewrite length_app, Hlen1. simpl. lia. }
  assert (Hd : h2 !! length h = Some (mkVec3 lit1 lit0 lit0)).
  { unfold h2. apply lookup_alloc_old. apply lookup_alloc_new. }
  assert (Hf : h2 !! S (length h) = Some ext).
  { unfold h2. rewrite <- Hlen1. apply lookup_alloc_new. }
  destruct (for_loop_alloc time b (thermal pl temp noise)
              (Z.to_nat (len - 1)) 1%Z [origin] (length h) (S (length h))
              (mkVec3 lit1 lit0 lit0) ext h2 ltac:(lia) Hd Hf ltac:(lia)
              eq_refl) as (h'' & Hloop & Hlen'').
  assert (Hcall : calculateWLCChain len pl temp time b noise e h
                  = Ok (p_points (pure_chain (Z.to_nat (len - 1)) pl temp
                                    time b noise ext), h'')).
  { assert (Hsteps :
      chain_steps (Z.to_nat (len - 1)) pl temp time b noise e h
      = Ok (mkLocals
              (p_points (pure_chain (Z.to_nat (len - 1)) pl temp time b
                           noise ext)) (length h) (S (length h)), h'')).
    { unfold chain_steps, prologue, new_Vector3.
      rewrite (bind_ok _ _ h h2 (mkLocals [origin] (length h) (S (length h)))).
      - exact Hloop.
      - rewrite (bind_ok _ _ h h1 (length h)) by reflexivity.
        assert (He1 : h1 !! e = Some ext) by now apply lookup_alloc_old.
        rewrite (bind_ok _ _ _ _ _ (load_ok _ _ _ He1)).
        rewrite (bind_ok _ _ h1 h2 (length h1)) by (destruct ext; reflexivity).
        now rewrite Hlen1. }
    unfold calculateWLCChain. now rewrite (bind_ok _ _ _ _ _ Hsteps). }
  rewrite Hcall in Hrun. injection Hrun as <-.
  rewrite Hlen'', Hlen2. unfold pure_chain.
  rewrite pure_steps_length. simpl. lia.
Qed.

End GeneratorExtras.

Lemma calculateWLCChain_short_witness :
  calculateWLCChain (NF := RealNumber) 0 50%R 300%R 0%R 1%R 1%R 0%nat
    [mkVec3 2%R 0%R 0%R]
  = Ok ([(0%R, 0%R, 0%R)],
        [mkVec3 2%R 0%R 0%R; mkVec3 1%R 0%R 0%R; mkVec3 2%R 0%R 0%R]).
Proof.
  apply (calculateWLCChain_short (NF := RealNumber) 0 50%R 300%R 0%R 1%R
           1%R 0%nat (mkVec3 2%R 0%R 0%R) [mkVec3 2%R 0%R 0%R]).
  - lia.
  - reflexivity.
Defined.

Lemma calculateWLCChain_prefix_witness :
  exists pts1 pts2 h1 h2,
    calculateWLCChain (NF := RealNumber) 2 50%R 300%R 0%R 1%R 1%R 0%nat
      [mkVec3 2%R 0%R 0%R] = Ok (pts1, h1)
    /\ calculateWLCChain (NF := RealNumber) 5 50%R 300%R 0%R 1%R 1%R 0%nat
         [mkVec3 2%R 0%R 0%R] = Ok (pts2, h2)
    /\ pts1 = take (Z.to_nat 2) pts2.
Proof.
  apply (calculateWLCChain_prefix (NF := RealNumber) 2 5 50%R 300%R 0%R 1%R
           1%R 0%nat (mkVec3 2%R 0%R 0%R)).
  - lia.
  - lia.
  - reflexivity.
Defined.

Lemma calculateWLCChain_allocation_witness :
  exists pts h',
    calculateWLCChain (NF := RealNumber) 3 50%R 300%R 0%R 1%R 1%R 0%nat
      [mkVec3 2%R 0%R 0%R] = Ok (pts, h')
    /\ length h' = (length [mkVec3 2%R 0%R 0%R] + length pts + 1)%nat
    /\ extends [mkVec3 2%R 0%R 0%R] h'.
Proof.
  apply (calculateWLCChain_allocation (NF := RealNumber) 3 50%R 300%R 0%R
           1%R 1%R 0%nat (mkVec3 2%R 0%R 0%R)).
  reflexivity.
Defined.

(** * Beyond the claims: the animation state and the sliders *)

Section AnimationExtras.
Context {F : Type} {NF : Number F}.

Lemma run_app (evs1 evs2 : list (Event F)) :
  forall w : World F,
  run (evs1 ++ evs2) w
  = match run evs1 w with
    | Ok w1 => run evs2 w1
    | TypeError => TypeError
    end.
Proof.
  induction evs1 as [|ev evs1 IH]; intros w; [reflexivity|].
  cbn [run app]. destruct (handle ev w) as [w1|]; [apply IH|reflexivity].
Qed.

Lemma extends_refl (h : Heap F) : extends h h.
Proof. now intros l v Hl. Qed.

Lemma extends_trans (h1 h2 h3 : Heap F) :
  extends h1 h2 -> extends h2 h3 -> extends h1 h3.
Proof. intros H12 H23 l v Hl. apply H23, H12, Hl. Qed.

(** A frame: what it publishes and what it leaves alone. *)
Lemma DNAModel_frame_spec (w : World F) (v : Vec3 F) :
  heap w !! prop_externalForce (props w) = Some v ->
  exists h',
    DNAModel_frame w
    = Ok (mkWorld (num_add (timeRef w) lit_step) h' (props w)
            (p_points
               (pure_chain (Z.to_nat (prop_length (props w) - 1))
                  (prop_persistenceLength (props w))
                  (prop_temperature (props w))
                  (num_add (timeRef w) lit_step)
                  (prop_bendingRigidity (props w))
                  (prop_noiseLevel (props w)) v)))
    /\ calculateWLCChain (prop_length (props w))
         (prop_persistenceLength (props w)) (prop_temperature (props w))
         (num_add (timeRef w) lit_step) (prop_bendingRigidity (props w))
         (prop_noiseLevel (props w)) (prop_externalForce (props w)) (heap w)
       = Ok (p_points
               (pure_chain (Z.to_nat (prop_length (props w) - 1))
                  (prop_persistenceLength (props w))
                  (prop_temperature (props w))
                  (num_add (timeRef w) lit_step)
                  (prop_bendingRigidity (props w))
                  (prop_noiseLevel (props w)) v), h')
    /\ extends (heap w) h'.
Proof.
  intros Hv. unfold DNAModel_frame.
  destruct (calculateWLCChain_spec (prop_length (props w))
              (prop_persistenceLength (props w))
              (prop_temperature (props w))
              (num_add (timeRef w) lit_step)
              (prop_bendingRigidity (props w))
              (prop_noiseLevel (props w))
              (prop_externalForce (props w)) v (heap w) Hv)
    as (h' & Hrun & Hext).
  exists h'. rewrite Hrun. repeat split; auto.
Qed.

(** An edit of a force slider: the world it leaves, written out. *)
Lemma replace_force_run (upd : Vec3 F -> Vec3 F) (w : World F)
      (v : Vec3 F) :
  heap w !! prop_externalForce (props w) = Some v ->
  replace_force upd w
  = Ok (mkWorld (timeRef w) (heap w ++ [upd v])
          (mkProps (prop_length (props w))
             (prop_persistenceLength (props w)) (prop_temperature (props w))
             (prop_bendingRigidity (props w)) (prop_noiseLevel (props w))
             (length (heap w)))
          (points_state w)).
Proof.
  intros Hv. unfold replace_force.
  now rewrite (bind_ok _ _ _ _ _ (load_ok _ _ _ Hv)).
Qed.

(** An event on a world whose [externalForce] is an object returns, keeps
    [externalForce] an object and changes no object of the heap. *)
Lemma handle_spec (ev : Event F) (w : World F) :
  valid_world w ->
  exists w',
    handle ev w = Ok w' /\ valid_world w' /\ extends (heap w) (heap w').
Proof.
  intros [v Hv]. destruct ev as [|e].
  - destruct (DNAModel_frame_spec w v Hv) as (h' & Hrun & _ & Hext).
    eexists. split; [exact Hrun|]. split; [|exact Hext].
    exists v. cbn [heap props]. now apply Hext.
  - assert (Hforce : forall upd,
      exists w', replace_force upd w = Ok w' /\ valid_world w'
                 /\ extends (heap w) (heap w')).
    { intros upd. eexists. split; [exact (replace_force_run upd w v Hv)|].
      split.
      - exists (upd v). cbn [heap props prop_externalForce].
        apply lookup_alloc_new.
      - intros l x Hl. cbn [heap]. now apply lookup_alloc_old. }
    destruct e; cbn [handle App_onChange]; try apply Hforce;
      (eexists; split; [reflexivity|]; split;
       [exists v; exact Hv | apply extends_refl]).
Qed.

Lemma run_spec (evs : list (Event F)) :
  forall w : World F,
  valid_world w ->
  exists w',
    run evs w = Ok w' /\ valid_world w' /\ extends (heap w) (heap w').
Proof.
  induction evs as [|ev evs IH]; intros w Hw.
  - exists w. repeat split; auto using extends_refl.
  - destruct (handle_spec ev w Hw) as (w1 & Hrun1 & Hw1 & Hext1).
    destruct (IH w1 Hw1) as (w2 & Hrun2 & Hw2 & Hext2).
    exists w2. cbn [run]. rewrite Hrun1.
    repeat split; eauto using extends_trans.
Qed.

(** Edits do not touch the published points. *)
Lemma App_onChange_points (e : Edit F) (w w' : World F) :
  App_onChange e w = Ok w' -> points_state w' = points_state w.
Proof.
  destruct e; cbn [App_onChange]; unfold with_props, replace_force;
    try (intros [= <-]; reflexivity);
    (destruct (bind _ _ _) as [[l h']|]; [|discriminate];
     intros [= <-]; reflexivity).
Qed.

Lemma run_no_frames (evs : list (Event F)) :
  forall w w' : World F,
  frames evs = 0%nat -> run evs w = Ok w' ->
  points_state w' = points_state w.
Proof.
  induction evs as [|[|e] evs IH]; intros w w' Hf Hrun.
  - now injection Hrun as <-.
  - discriminate.
  - cbn [run handle] in Hrun.
    destruct (App_onChange e w) as [w1|] eqn:He; [|discriminate].
    rewrite (IH w1 w' Hf Hrun). exact (App_onChange_points e w w1 He).
Qed.

(** X6 (objects are never changed by later events): whatever the history
    of display refreshes and slider edits, it runs to the end without a
    [TypeError], and every object that existed before it, the
    [externalForce] objects of the React state among them, has the same
    fields after it: a frame only changes vectors it created itself and an
    edit of a force slider builds a new object. *)
Theorem events_keep_objects (evs : list (Event F)) (w : World F) :
  valid_world w ->
  exists w', run evs w = Ok w' /\ extends (heap w) (heap w').
Proof.
  intros Hw. destruct (run_spec evs w Hw) as (w' & Hrun & _ & Hext).
  now exists w'.
Qed.

(** X7 (what a frame publishes): after any history from the initial state,
    one more display refresh keeps the props, and the points it publishes
    are what [calculateWLCChain] returns for the current props and the new
    time: [max(1, length)] points, the first one the origin.  One more
    slider edit instead leaves the published points as they are: an edit
    shows at the next refresh. *)
Theorem frame_publishes_chain (evs : list (Event F)) :
  exists w w',
    run evs App_initial = Ok w
    /\ run (evs ++ [Frame]) App_initial = Ok w'
    /\ props w' = props w
    /\ (exists h',
          calculateWLCChain (prop_length (props w))
            (prop_persistenceLength (props w)) (prop_temperature (props w))
            (num_add (timeRef w) lit_step) (prop_bendingRigidity (props w))
            (prop_noiseLevel (props w)) (prop_externalForce (props w))
            (heap w)
          = Ok (points_state w', h'))
    /\ Z.of_nat (length (points_state w')) = Z.max 1 (prop_length (props w))
    /\ points_state w' !! 0%nat = Some (lit0, lit0, lit0)
    /\ (forall e, exists w'',
          run (evs ++ [Change e]) App_initial = Ok w''
          /\ points_state w'' = points_state w).
Proof.
  destruct (run_spec evs App_initial App_initial_valid)
    as (w & Hrun & [v Hv] & _).
  destruct (DNAModel_frame_spec w v Hv) as (h' & Hframe & Hcall & _).
  eexists w, _. split; [exact Hrun|].
  split; [rewrite run_app, Hrun; cbn [run handle]; now rewrite Hframe|].
  cbn [props points_state]. split; [reflexivity|].
  split; [now exists h'|]. split; [|split].
  - unfold pure_chain. rewrite pure_steps_length. simpl. lia.
  - unfold pure_chain. now apply pure_steps_head.
  - intros e.
    destruct (handle_spec (Change e) w (ex_intro _ v Hv))
      as (w'' & Hchange & _ & _).
    exists w''. rewrite run_app, Hrun. cbn [run]. rewrite Hchange.
    split; [reflexivity|]. exact (App_onChange_points e w w'' Hchange).
Qed.

(** X8 (force sliders): an edit of the X slider of the force, on a world
    whose [externalForce] object holds [v], returns; the new
    [externalForce] is a new object with [x] the edited value and the [y]
    and [z] of [v], the old object still holds [v], and the time, the
    published points and the five numeric props are as before.  The Y and
    Z sliders do the same for their coordinate. *)
Theorem force_slider_edit (w : World F) (v : Vec3 F) (a : F) :
  heap w !! prop_externalForce (props w) = Some v ->
  (exists w',
     App_onChange (SetExternalForceX a) w = Ok w'
     /\ props_view w'
        = Some (prop_length (props w), prop_persistenceLength (props w),
                prop_temperature (props w), prop_bendingRigidity (props w),
                prop_noiseLevel (props w), mkVec3 a (vy v) (vz v))
     /\ prop_externalForce (props w') <> prop_externalForce (props w)
     /\ heap w' !! prop_externalForce (props w) = Some v
     /\ timeRef w' = timeRef w /\ points_state w' = points_state w)
  /\ (exists w',
        App_onChange (SetExternalForceY a) w = Ok w'
        /\ props_view w'
           = Some (prop_length (props w), prop_persistenceLength (props w),
                   prop_temperature (props w),
                   prop_bendingRigidity (props w),
                   prop_noiseLevel (props w), mkVec3 (vx v) a (vz v))
        /\ prop_externalForce (props w') <> prop_externalForce (props w)
        /\ heap w' !! prop_externalForce (props w) = Some v
        /\ timeRef w' = timeRef w /\ points_state w' = points_state w)
  /\ (exists w',
        App_onChange (SetExternalForceZ a) w = Ok w'
        /\ props_view w'
           = Some (prop_length (props w), prop_persistenceLength (props w),
                   prop_temperature (props w),
                   prop_bendingRigidity (props w),
                   prop_noiseLevel (props w), mkVec3 (vx v) (vy v) a)
        /\ prop_externalForce (props w') <> prop_externalForce (props w)
        /\ heap w' !! prop_externalForce (props w) = Some v
        /\ timeRef w' = timeRef w /\ points_state w' = points_state w).
Proof.
  intros Hv.
  pose proof (lookup_lt_Some _ _ _ Hv) as Hlt.
  repeat split;
    (eexists; split;
       [cbn [App_onChange]; exact (replace_force_run _ w v Hv)|];
     unfold props_view; cbn [heap props prop_externalForce prop_length
       prop_persistenceLength prop_temperature prop_bendingRigidity
       prop_noiseLevel timeRef points_state];
     rewrite lookup_alloc_new;
     repeat split; [lia | now apply lookup_alloc_old]).
Qed.

End AnimationExtras.

Lemma events_keep_objects_witness :
  exists w',
    run (NF := RealNumber)
      [Frame; Change (SetExternalForceX 1%R); Frame]
      (App_initial (NF := RealNumber)) = Ok w'
    /\ extends (heap (App_initial (NF := RealNumber))) (heap w').
Proof.
  apply (events_keep_objects (NF := RealNumber)
           [Frame; Change (SetExternalForceX 1%R); Frame] App_initial).
  apply App_initial_valid.
Defined.

Lemma force_slider_edit_witness :
  exists w',
    App_onChange (SetExternalForceY 4%R) (App_initial (NF := RealNumber))
    = Ok w'
    /\ props_view w'
       = Some (100%Z, 50%R, 300%R, 1%R, 1%R, mkVec3 0%R 4%R 0%R)
    /\ prop_externalForce (props w') <> 0%nat
    /\ heap w' !! 0%nat = Some (mkVec3 0%R 0%R 0%R)
    /\ timeRef w' = 0%R /\ points_state w' = [].
Proof.
  apply (force_slider_edit (App_initial (NF := RealNumber))
           (mkVec3 0%R 0%R 0%R) 4%R).
  reflexivity.
Defined.

(** * Beyond the claims: how slider edits compose *)

Section EditExtras.
Context {F : Type} {NF : Number F}.

Ltac run_edits Hv :=
  cbn [run handle App_onChange with_props];
  unfold replace_force, bind, load, alloc;
  cbn [heap props prop_externalForce prop_length prop_persistenceLength
       prop_temperature prop_bendingRigidity prop_noiseLevel timeRef
       points_state];
  repeat (rewrite ?Hv, ?lookup_alloc_new;
          cbn [heap props prop_externalForce prop_length
               prop_persistenceLength prop_temperature prop_bendingRigidity
               prop_noiseLevel timeRef points_state vx vy vz]).

Ltac view_edits Hv :=
  unfold props_view;
  cbn [heap props prop_externalForce prop_length prop_persistenceLength
       prop_temperature prop_bendingRigidity prop_noiseLevel timeRef
       points_state];
  rewrite ?Hv, ?lookup_alloc_new; cbn [vx vy vz].

(** X9 (edits of different sliders commute): on a world whose
    [externalForce] is an object, two edits that come from different
    sliders return in either order, and both orders leave the same time,
    the same published points and the same values for [DNAModel] to read
    (the same numbers and the same force fields). *)
Theorem edits_commute (e1 e2 : Edit F) (w : World F) :
  valid_world w ->
  same_slider e1 e2 = false ->
  exists w12 w21,
    run [Change e1; Change e2] w = Ok w12
    /\ run [Change e2; Change e1] w = Ok w21
    /\ props_view w12 = props_view w21
    /\ timeRef w12 = timeRef w21
    /\ points_state w12 = points_state w21.
Proof.
  intros [v Hv] Hne.
  destruct w as [t h [len pl temp b n ext] ps].
  cbn [heap props prop_externalForce] in Hv.
  destruct e1, e2; try discriminate Hne;
    (eexists _, _; split; [run_edits Hv; reflexivity|];
     split; [run_edits Hv; reflexivity|];
     split; [view_edits Hv; reflexivity|]; split; reflexivity).
Qed.

(** X10 (the last edit of a slider wins): two edits from the same slider,
    one after the other, leave the same time, the same published points
    and the same values for [DNAModel] to read as the second edit
    alone. *)
Theorem edit_last_wins (e1 e2 : Edit F) (w : World F) :
  valid_world w ->
  same_slider e1 e2 = true ->
  exists w12 w2,
    run [Change e1; Change e2] w = Ok w12
    /\ run [Change e2] w = Ok w2
    /\ props_view w12 = props_view w2
    /\ timeRef w12 = timeRef w2
    /\ points_state w12 = points_state w2.
Proof.
  intros [v Hv] Hsame.
  destruct w as [t h [len pl temp b n ext] ps].
  cbn [heap props prop_externalForce] in Hv.
  destruct e1, e2; try discriminate Hsame;
    (eexists _, _; split; [run_edits Hv; reflexivity|];
     split; [run_edits Hv; reflexivity|];
     split; [view_edits Hv; reflexivity|]; split; reflexivity).
Qed.

End EditExtras.

Lemma edits_commute_witness :
  exists w12 w21,
    run (NF := RealNumber) [Change (SetExternalForceX 2%R); Change (SetExternalForceZ 5%R)]
      (App_initial (NF := RealNumber)) = Ok w12
    /\ run (NF := RealNumber) [Change (SetExternalForceZ 5%R); Change (SetExternalForceX 2%R)]
         (App_initial (NF := RealNumber)) = Ok w21
    /\ props_view w12 = props_view w21
    /\ timeRef w12 = timeRef w21
    /\ points_state w12 = points_state w21.
Proof.
  apply (edits_commute (NF := RealNumber) (SetExternalForceX 2%R)
           (SetExternalForceZ 5%R) App_initial).
  - apply App_initial_valid.
  - reflexivity.
Defined.

Lemma edit_last_wins_witness :
  exists w12 w2,
    run (NF := RealNumber) [Change (SetExternalForceY 2%R); Change (SetExternalForceY 5%R)]
      (App_initial (NF := RealNumber)) = Ok w12
    /\ run (NF := RealNumber) [Change (SetExternalForceY 5%R)]
         (App_initial (NF := RealNumber)) = Ok w2
    /\ props_view w12 = props_view w2
    /\ timeRef w12 = timeRef w2
    /\ points_state w12 = points_state w2.
Proof.
  apply (edit_last_wins (NF := RealNumber) (SetExternalForceY 2%R)
           (SetExternalForceY 5%R) App_initial).
  - apply App_initial_valid.
  - reflexivity.
Defined.

(** * Beyond the claims: from the published points to the buffer *)

Section PipelineExtras.
Context {F G : Type} {NF : Number F}.
Variable fround : F -> G.
Variable f32_zero : G.

(** X11 (before the first refresh): a history of slider edits only, from
    the initial state, leaves the time at 0 and the published points
    empty, and the frame callback of [DNASegment] then builds an empty
    buffer and raises nothing. *)
Theorem before_first_frame (evs : list (Event F))
        (line : option (BufferAttribute G)) :
  frames evs = 0%nat ->
  exists w,
    run evs App_initial = Ok w
    /\ timeRef w = lit0
    /\ points_state w = []
    /\ DNASegment_frame fround f32_zero (Some line) (points_state w)
       = Normal (Some (Some (mkBufferAttribute [] 3 true))).
Proof.
  intros Hf.
  destruct (run_time evs App_initial App_initial_valid)
    as (w & Hrun & Ht & _).
  exists w. split; [exact Hrun|].
  rewrite Hf in Ht.
  pose proof (run_no_frames evs App_initial w Hf Hrun) as Hpts.
  cbn [points_state App_initial] in Hpts.
  split; [exact Ht|]. split; [exact Hpts|].
  rewrite Hpts. exact (DNASegment_frame_mounted fround f32_zero line []).
Qed.

(** X12 (a frame, then the buffer): after any history from the initial
    state and one more display refresh, the frame callback of [DNASegment]
    on the published points raises nothing; the buffer has
    [3 * max(1, length)] numbers, item size 3, and starts with the three
    converted zeros of the origin. *)
Theorem frame_then_buffer (evs : list (Event F))
        (line : option (BufferAttribute G)) :
  exists w' attr,
    run (evs ++ [Frame]) App_initial = Ok w'
    /\ DNASegment_frame fround f32_zero (Some line) (points_state w')
       = Normal (Some (Some attr))
    /\ Z.of_nat (length (attr_array attr))
       = (3 * Z.max 1 (prop_length (props w')))%Z
    /\ attr_itemSize attr = 3%nat
    /\ take 3 (attr_array attr) = [fround lit0; fround lit0; fround lit0].
Proof.
  destruct (run_spec evs App_initial App_initial_valid)
    as (w & Hrun & [v Hv] & _).
  destruct (DNAModel_frame_spec w v Hv) as (h' & Hframe & _ & _).
  eexists _, _.
  split; [rewrite run_app, Hrun; cbn [run handle]; now rewrite Hframe|].
  cbn [points_state props].
  split; [apply DNASegment_frame_mounted|].
  cbn [attr_array attr_itemSize].
  set (pts := p_points (pure_chain _ _ _ _ _ _ _)).
  assert (Hlen : length pts = Z.to_nat (Z.max 1 (prop_length (props w)))).
  { unfold pts, pure_chain. rewrite pure_steps_length. simpl. lia. }
  assert (Hhd : pts !! 0%nat = Some (lit0, lit0, lit0)).
  { unfold pts, pure_chain. now apply pure_steps_head. }
  split; [rewrite flat_positions_length, Hlen; lia|].
  split; [reflexivity|].
  destruct pts as [|p pts']; [discriminate|].
  injection Hhd as ->. reflexivity.
Qed.

End PipelineExtras.

Lemma before_first_frame_witness :
  exists w,
    run (NF := RealNumber) [Change (SetLength 60); Change (SetNoiseLevel 2%R)]
      (App_initial (NF := RealNumber)) = Ok w
    /\ timeRef w = 0%R
    /\ points_state w = []
    /\ DNASegment_frame (fun x : R => x) 0%R (Some None) (points_state w)
       = Normal (Some (Some (mkBufferAttribute [] 3 true))).
Proof.
  apply (before_first_frame (NF := RealNumber) (fun x : R => x) 0%R
           [Change (SetLength 60); Change (SetNoiseLevel 2%R)] None).
  reflexivity.
Defined.

(** * Beyond the claims: the shape of the chain, on binary64 *)

Section StraightChain.
Variable host : Host.
Let NF : Number float := FloatNumber host.
#[local] Existing Instance NF.

Lemma vadd_x_axis_zero (z : Vec3 float) :
  vec_zero z ->
  vadd (mkVec3 1%float 0%float 0%float) z = mkVec3 1%float 0%float 0%float.
Proof.
  intros (Hx & Hy & Hz). unfold vadd; cbn.
  now rewrite one_add_zero, !zero_add_zero.
Qed.

Lemma float_axis_points_S (n : nat) :
  float_axis_points (S n)
  = float_axis_points n
    ++ [(Nat.iter (S n) (fun x => x + 1)%float 0%float, 0%float, 0%float)].
Proof. unfold float_axis_points. now rewrite seq_S, map_app. Qed.

Lemma float_axis_points_last (n : nat) :
  List.last (float_axis_points n) origin
  = (Nat.iter n (fun x => x + 1)%float 0%float, 0%float, 0%float).
Proof.
  destruct n as [|n]; [reflexivity|].
  rewrite float_axis_points_S. apply last_last.
Qed.

(** With zero force and fluctuations of zeros the direction stays
    [(1, 0, 0)] and each point is the one before it moved by 1 along
    [x]. *)
Lemma pure_chain_straight (n : nat) (pl temp time b noise : float)
      (ext : Vec3 float) :
  vec_zero ext -> finite (1 / b)%float ->
  (forall i, (1 <= i <= Z.of_nat n)%Z ->
     vec_zero (fluctuation_fields time (thermal pl temp noise) i)) ->
  pure_chain n pl temp time b noise ext
  = mkPure (float_axis_points n) (mkVec3 1%float 0%float 0%float)
      (Nat.iter n (fun v => vscale v (1 / b)%float) ext).
Proof.
  intros Hz Hr. induction n as [|n IH]; intros Hfl; [reflexivity|].
  rewrite pure_chain_S, IH by (intros; apply Hfl; lia).
  unfold pure_step, pre_normalize. cbn [p_points p_direction p_force].
  rewrite vadd_x_axis_zero by (apply Hfl; lia).
  change (vnormalize (mkVec3 1%float 0%float 0%float))
    with (mkVec3 1%float 0%float 0%float).
  change (lit1 / b)%num with (1 / b)%float.
  rewrite vadd_x_axis_zero
    by (apply vscale_vec_zero; [now apply iter_vscale_zero|exact Hr]).
  rewrite float_axis_points_S, float_axis_points_last.
  reflexivity.
Qed.

(** X14 (straight chain): on binary64, with the fields of
    [externalForce] zeros, [1 / bendingRigidity] finite, [noiseLevel] a
    zero, [(temperature / persistenceLength) ** 0.5] finite and
    [Math.sin] and [Math.cos] finite at the arguments the loop passes
    them, the call returns the points [(0,0,0), (1,0,0), (1+1,0,0), ...]
    on the [x] axis, each one binary64 addition of 1 from the one before
    it, whatever the time, the temperature, the persistence length and
    the bending rigidity are; for [length <= 1] that is the single point
    [(0,0,0)]. *)
Theorem straight_chain (len : Z) (pl temp time b noise : float) (e : loc)
        (ext : Vec3 float) (h : Heap float) :
  vec_zero ext -> finite (1 / b)%float ->
  PrimFloat.is_zero noise = true ->
  finite (js_pow_half host (temp / pl)%float) ->
  trig_finite host time len ->
  h !! e = Some ext ->
  exists h',
    calculateWLCChain len pl temp time b noise e h
    = Ok (float_axis_points (Z.to_nat (len - 1)), h').
Proof.
  intros Hz Hr Hn Hp [Hz1 Ht] He.
  destruct (calculateWLCChain_spec len pl temp time b noise e ext h He)
    as (h' & Hrun & _).
  exists h'. rewrite Hrun, pure_chain_straight; auto.
  intros i Hi. destruct (Ht i ltac:(lia)) as [Hs Hc].
  apply fluctuation_zero; auto. now apply thermal_zero.
Qed.

(** X17 (no negative zero): on binary64, for every host and whatever the
    arguments are, no coordinate of a point the call returns is [-0]: a
    point starts at [+0] and a binary64 sum is [-0] only when both of its
    terms are. *)
Theorem points_no_negative_zero (len : Z) (pl temp time b noise : float)
        (e : loc) (ext : Vec3 float) (h : Heap float) :
  h !! e = Some ext ->
  exists pts h',
    calculateWLCChain len pl temp time b noise e h = Ok (pts, h')
    /\ forall (k : nat) (p : Point float),
         pts !! k = Some p -> point_no_neg_zero p.
Proof.
  intros He.
  destruct (calculateWLCChain_spec len pl temp time b noise e ext h He)
    as (h' & Hrun & _).
  eexists _, h'. split; [exact Hrun|].
  intros k p Hp. now apply pure_chain_no_neg_zero in Hp.
Qed.

End StraightChain.

Lemma straight_chain_witness :
  exists h',
    calculateWLCChain (NF := FloatNumber sample_host) 4 10%float 500%float
      0.25%float 3%float 0%float 0%nat [mkVec3 0%float 0%float 0%float]
    = Ok (float_axis_points (Z.to_nat (4 - 1)), h').
Proof.
  apply (straight_chain sample_host 4 10%float 500%float 0.25%float
           3%float 0%float 0%nat (mkVec3 0%float 0%float 0%float)).
  - repeat split; reflexivity.
  - reflexivity.
  - reflexivity.
  - reflexivity.
  - split; [reflexivity|]. intros i Hi.
    assert (Hc : i = 1%Z \/ i = 2%Z \/ i = 3%Z) by lia.
    destruct Hc as [->|[->| ->]]; split; reflexivity.
  - reflexivity.
Defined.
Lemma points_no_negative_zero_witness :
  exists pts h',
    calculateWLCChain (NF := FloatNumber sample_host) 3 50%float 300%float
      0.25%float (-2)%float 1%float 0%nat
      [mkVec3 0%float (-0)%float 1%float]
    = Ok (pts, h')
    /\ forall (k : nat) (p : Point float),
         pts !! k = Some p -> point_no_neg_zero p.
Proof.
  apply (points_no_negative_zero sample_host 3 50%float 300%float
           0.25%float (-2)%float 1%float 0%nat
           (mkVec3 0%float (-0)%float 1%float)).
  reflexivity.
Defined.

(** * Beyond the claims: non-finite inputs, on binary64 *)

Section FloatExtras.
Variable host : Host.
Let NF : Number float := FloatNumber host.
#[local] Existing Instance NF.

Lemma add_non_finite_l (x y : float) :
  non_finite x -> non_finite (x + y)%float.
Proof.
  rewrite !non_finite_spec, FloatAxioms.add_spec.
  destruct (Prim2SF x) as [[]|[]| |], (Prim2SF y) as [[]|[]| |]; simpl;
    intros; try discriminate; reflexivity.
Qed.

(** A non-finite number divided by anything, and anything divided by a
    zero, is non-finite. *)
Lemma div_non_finite_l (x y : float) :
  non_finite x -> non_finite (x / y)%float.
Proof.
  rewrite !non_finite_spec, FloatAxioms.div_spec.
  destruct (Prim2SF x), (Prim2SF y); simpl; intros;
    try discriminate; reflexivity.
Qed.

Lemma div_zero_non_finite (x y : float) :
  PrimFloat.is_zero y = true -> non_finite (x / y)%float.
Proof.
  intros [s Hs]%is_zero_spec.
  rewrite non_finite_spec, FloatAxioms.div_spec, Hs.
  now destruct (Prim2SF x).
Qed.

Lemma one_div_nan (b : float) :
  PrimFloat.is_nan b = true -> non_finite (1 / b)%float.
Proof.
  intros Hb. rewrite non_finite_spec, FloatAxioms.div_spec.
  unfold is_nan in Hb. rewrite FloatAxioms.eqb_spec in Hb.
  change (Prim2SF 1) with (S754_finite false 4503599627370496 (-52)).
  destruct (Prim2SF b) as [s|s| |s m e]; try reflexivity.
  - destruct s; discriminate Hb.
  - unfold SFeqb in Hb. rewrite SFcompare_refl_finite in Hb. discriminate.
Qed.

(** [Math.sin] and [Math.cos] of a non-finite number are [NaN], and
    [x ** 0.5] of one is [NaN] or [+Infinity]. *)
Lemma js_sin_non_finite (x : float) :
  non_finite x -> non_finite (js_sin host x).
Proof. intros Hx. unfold js_sin. now rewrite Hx. Qed.

Lemma js_cos_non_finite (x : float) :
  non_finite x -> non_finite (js_cos host x).
Proof. intros Hx. unfold js_cos. now rewrite Hx. Qed.

Lemma js_pow_half_non_finite (x : float) :
  non_finite x -> non_finite (js_pow_half host x).
Proof.
  intros Hx. unfold js_pow_half.
  destruct (is_nan x) eqn:Hnan; [reflexivity|].
  destruct (is_infinity x) eqn:Hinf; [reflexivity|].
  unfold non_finite, PrimFloat.is_finite in Hx.
  rewrite Hnan, Hinf in Hx. discriminate.
Qed.

(** A fluctuation computed from a non-finite time or thermal scale has no
    finite field. *)
Lemma fluctuation_non_finite (time th : float) (i : Z) :
  non_finite time \/ non_finite th ->
  vec_non_finite (fluctuation_fields time th i).
Proof.
  intros [Ht|Hth]; unfold vec_non_finite, fluctuation_fields; cbn.
  - repeat split; do 2 apply mul_non_finite_l.
    + now apply js_sin_non_finite, add_non_finite_l.
    + now apply js_cos_non_finite, add_non_finite_l.
    + now apply js_sin_non_finite, mul_non_finite_l.
  - repeat split; now apply mul_non_finite_r.
Qed.

Lemma vadd_non_finite_l (u v : Vec3 float) :
  vec_non_finite u -> vec_non_finite (vadd u v).
Proof.
  intros (Hx & Hy & Hz). unfold vec_non_finite, vadd; cbn.
  repeat split; now apply add_non_finite_l.
Qed.

Lemma vnormalize_non_finite (v : Vec3 float) :
  vec_non_finite v -> vec_non_finite (vnormalize v).
Proof.
  intros (Hx & Hy & Hz). unfold vec_non_finite, vnormalize, vscale; cbn.
  repeat split; now apply mul_non_finite_l.
Qed.

(** An iteration leaves no finite field in [direction] when the time, the
    thermal scale or [1 / bendingRigidity] is non-finite. *)
Lemma pure_step_degenerate (time b th : float) (i : Z) (s : Pure float) :
  non_finite time \/ non_finite th \/ non_finite (1 / b)%float ->
  vec_non_finite (p_direction (pure_step time b th i s)).
Proof.
  intros H. cbn [p_direction pure_step].
  destruct H as [Ht|[Hth|Hb]].
  - apply vadd_non_finite_l, vnormalize_non_finite, vadd_non_finite,
      fluctuation_non_finite. now left.
  - apply vadd_non_finite_l, vnormalize_non_finite, vadd_non_finite,
      fluctuation_non_finite. now right.
  - now apply vadd_non_finite, vscale_non_finite.
Qed.

Lemma thermal_degenerate (pl temp noise : float) :
  non_finite noise \/ non_finite temp \/ PrimFloat.is_zero pl = true ->
  non_finite (thermal pl temp noise).
Proof.
  unfold thermal; cbn. intros [Hn|[Ht|Hpl]].
  - now apply mul_non_finite_r.
  - now apply mul_non_finite_l, js_pow_half_non_finite, div_non_finite_l.
  - now apply mul_non_finite_l, js_pow_half_non_finite, div_zero_non_finite.
Qed.

(** X16 (degenerate inputs): when the time, the noise level or the
    temperature is [NaN] or infinite, or the persistence length is a zero,
    or the bending rigidity is [NaN], a call with an integer
    [length >= 1] still returns [length] points, on every host and
    whatever the other arguments are, and every coordinate of every point
    from index 1 on is [NaN] or infinite. *)
Theorem degenerate_inputs (len : Z) (pl temp time b noise : float)
        (e : loc) (ext : Vec3 float) (h : Heap float) :
  non_finite time \/ non_finite noise \/ non_finite temp
  \/ PrimFloat.is_zero pl = true \/ PrimFloat.is_nan b = true ->
  (1 <= len)%Z ->
  h !! e = Some ext ->
  exists pts h',
    calculateWLCChain len pl temp time b noise e h = Ok (pts, h')
    /\ Z.of_nat (length pts) = len
    /\ (forall k p, (1 <= k)%nat -> pts !! k = Some p -> point_non_finite p).
Proof.
  intros Hdeg Hlen He.
  assert (Hstep : non_finite time \/ non_finite (thermal pl temp noise)
                  \/ non_finite (1 / b)%float).
  { destruct Hdeg as [Ht|[Hn|[Htemp|[Hpl|Hb]]]].
    - now left.
    - right; left. apply thermal_degenerate. now left.
    - right; left. apply thermal_degenerate. right. now left.
    - right; left. apply thermal_degenerate. right. now right.
    - right; right. now apply one_div_nan. }
  destruct (calculateWLCChain_spec len pl temp time b noise e ext h He)
    as (h' & Hrun & _).
  eexists _, h'. split; [exact Hrun|].
  assert (Hsize :
    length (p_points (pure_chain (Z.to_nat (len - 1)) pl temp time b
                        noise ext)) = Z.to_nat len).
  { unfold pure_chain. rewrite pure_steps_length. simpl. lia. }
  split; [lia|].
  intros k p Hk Hp. destruct k as [|k]; [lia|].
  pose proof (lookup_lt_Some _ _ _ Hp) as Hlt.
  destruct (pure_chain_segment (Z.to_nat (len - 1)) k pl temp time b
              noise ext ltac:(lia)) as (q & _ & Hq).
  rewrite Hq in Hp. injection Hp as <-.
  apply point_add_non_finite. rewrite pure_chain_S.
  now apply pure_step_degenerate.
Qed.

End FloatExtras.

Lemma degenerate_inputs_witness :
  exists pts h',
    calculateWLCChain (NF := FloatNumber sample_host) 3 0%float 300%float
      0.25%float 1%float 1%float 0%nat [mkVec3 0%float 0%float 0%float]
    = Ok (pts, h')
    /\ Z.of_nat (length pts) = 3%Z
    /\ (forall k p, (1 <= k)%nat -> pts !! k = Some p -> point_non_finite p).
Proof.
  apply (degenerate_inputs sample_host 3 0%float 300%float 0.25%float
           1%float 1%float 0%nat (mkVec3 0%float 0%float 0%float)).
  - right; right; right; left. reflexivity.
  - lia.
  - reflexivity.
Defined.
